(** * SSE to WebSocket protocol converter: a shallow embedding of
      [sse_to_ws_proxy.py] and the properties of its stream parser and
      forwarding session.

    Python [str] values are sequences of Unicode code points, [bytes] values
    are sequences of octets.  The builtins the program calls ([str.strip],
    [str.split], [str.startswith], [bytes.decode], [json.loads]) are modelled
    in the first part of the file; the methods of [SSEToWebSocketProxy]
    follow, each under the name it has in the source. *)

From Stdlib Require Import String Ascii DecimalString.
From Stdlib.Strings Require Import Byte.
From Stdlib Require Import ZArith List Bool Lia.
Import ListNotations.
Open Scope Z_scope.

(** ** Python [str] and [bytes] *)

Definition codepoint := Z.
Definition str := list codepoint.
Definition bytes := list byte.

(** A [str] literal of the source, written with Python's escapes
    [\n], [\r], [\t], [\\] and [\xHH] (ASCII only). *)
Definition hexdigit (a : ascii) : Z :=
  let n := Z.of_N (N_of_ascii a) in
  if n <? 58 then n - 48 else if n <? 71 then n - 55 else n - 87.

Fixpoint lit_chars (l : list ascii) : str :=
  match l with
  | [] => []
  | "\"%char :: "n"%char :: r => 10 :: lit_chars r
  | "\"%char :: "r"%char :: r => 13 :: lit_chars r
  | "\"%char :: "t"%char :: r => 9 :: lit_chars r
  | "\"%char :: "\"%char :: r => 92 :: lit_chars r
  | "\"%char :: "x"%char :: h :: l :: r =>
      (16 * hexdigit h + hexdigit l) :: lit_chars r
  | a :: r => Z.of_N (N_of_ascii a) :: lit_chars r
  end.

Definition lit (s : string) : str := lit_chars (list_ascii_of_string s).

Definition LF : codepoint := 10.

Fixpoint str_eqb (a b : str) : bool :=
  match a, b with
  | [], [] => true
  | x :: a', y :: b' => (x =? y) && str_eqb a' b'
  | _, _ => false
  end.

(** [str.isspace] on one character: CPython's [_PyUnicode_IsWhitespace]. *)
Definition isspace (c : codepoint) : bool :=
  ((9 <=? c) && (c <=? 13)) || ((28 <=? c) && (c <=? 32))
  || (c =? 133) || (c =? 160) || (c =? 5760)
  || ((8192 <=? c) && (c <=? 8202))
  || (c =? 8232) || (c =? 8233) || (c =? 8239) || (c =? 8287) || (c =? 12288).

Fixpoint lstrip (s : str) : str :=
  match s with
  | [] => []
  | c :: r => if isspace c then lstrip r else s
  end.

Definition rstrip (s : str) : str := rev (lstrip (rev s)).

(** [s.strip()] *)
Definition strip (s : str) : str := rstrip (lstrip s).

(** Truth value of a [str] or of a list: non-empty. *)
Definition truthy {A} (l : list A) : bool :=
  match l with [] => false | _ :: _ => true end.

(** [s.startswith(prefix)] *)
Fixpoint startswith (prefix s : str) : bool :=
  match prefix, s with
  | [], _ => true
  | p :: prefix', c :: s' => (p =? c) && startswith prefix' s'
  | _ :: _, [] => false
  end.

(** [s.split(sep)] for a separator of one character. *)
Fixpoint split_char (sep : codepoint) (s : str) : list str :=
  match s with
  | [] => [[]]
  | c :: r =>
      if c =? sep then [] :: split_char sep r
      else match split_char sep r with
           | l :: ls => (c :: l) :: ls
           | [] => [[c]]
           end
  end.

(** [s.split(sep, 1)] when [sep in s]: the text before the first occurrence
    of [sep] and the text after it; [None] when [sep] does not occur, which
    is when [sep in s] is false. *)
Fixpoint split_once (sep s : str) : option (str * str) :=
  if startswith sep s then Some ([], skipn (List.length sep) s)
  else match s with
       | [] => None
       | c :: r =>
           match split_once sep r with
           | Some (a, b) => Some (c :: a, b)
           | None => None
           end
       end.

(** [sub in s] *)
Definition str_in (sub s : str) : bool :=
  match split_once sub s with Some _ => true | None => false end.

(** [sep.join(parts)] *)
Fixpoint join (sep : str) (parts : list str) : str :=
  match parts with
  | [] => []
  | [p] => p
  | p :: ps => p ++ sep ++ join sep ps
  end.

(** ** Python values and dictionaries *)

(** The values [json.loads] returns and [send_json] takes.  A float is kept
    as the literal it was read from: the program never computes with one. *)
#[warnings="-register-all"]
Inductive pyval : Type :=
| PNone
| PBool (b : bool)
| PInt (z : Z)
| PFloat (literal : str)
| PStr (s : str)
| PList (l : list pyval)
| PDict (d : list (str * pyval)).

(** A [dict] with [str] keys, in insertion order. *)
Definition dict := list (str * pyval).

Fixpoint dict_get (k : str) (d : dict) : option pyval :=
  match d with
  | [] => None
  | (k', v) :: d' => if str_eqb k k' then Some v else dict_get k d'
  end.

(** [d[k] = v]: an existing key keeps its place, a new one goes last. *)
Fixpoint dict_set (k : str) (v : pyval) (d : dict) : dict :=
  match d with
  | [] => [(k, v)]
  | (k', v') :: d' =>
      if str_eqb k k' then (k', v) :: d' else (k', v') :: dict_set k v d'
  end.

Definition isinstance_dict (v : pyval) : bool :=
  match v with PDict _ => true | _ => false end.

Definition isinstance_str (v : pyval) : bool :=
  match v with PStr _ => true | _ => false end.

(** ** Exceptions and the interpreter

    The exceptions the program can meet.  [json.loads] raises
    [json.JSONDecodeError] on text that is not JSON; it raises [ValueError]
    on an integer literal with more digits than the interpreter converts,
    and [RecursionError] on arrays and objects nested deeper than the
    interpreter follows.  [ClientError] stands for the exceptions of the
    HTTP client, with their [str(e)]. *)
Inductive exn : Type :=
| JSONDecodeError
| ValueError (digits : nat)
| RecursionError (in_object : bool)
| ClientError (description : str).

(** What a call comes to: a value, or an exception that leaves it. *)
Inductive result (A : Type) : Type :=
| Ok (a : A)
| Raise (e : exn).

Arguments Ok {A} a.
Arguments Raise {A} e.

(** The interpreter the proxy runs in: the limit on the digits of an
    integer ([sys.get_int_max_str_digits()], 0 for none), the number of
    nested arrays and objects [json.loads] accepts where the proxy calls it,
    and the [str(e)] of the exceptions [json.loads] raises. *)
Record interpreter : Type := {
  int_max_str_digits : nat;
  recursion_limit : nat;
  message : exn -> str
}.

(** ** [json.loads]

    A model of the standard library's decoder on [str] input, with its
    default options.  The functions take the two limits of the
    interpreter; [depth] counts the arrays and objects entered. *)

Module Json.

Definition is_ws (c : codepoint) : bool :=
  (c =? 32) || (c =? 9) || (c =? 10) || (c =? 13).

Fixpoint skip_ws (s : str) : str :=
  match s with
  | [] => []
  | c :: r => if is_ws c then skip_ws r else s
  end.

Definition is_digit (c : codepoint) : bool := (48 <=? c) && (c <=? 57).

Definition hexval (c : codepoint) : option Z :=
  if is_digit c then Some (c - 48)
  else if (65 <=? c) && (c <=? 70) then Some (c - 55)
  else if (97 <=? c) && (c <=? 102) then Some (c - 87)
  else None.

Definition hex4 (a b c d : codepoint) : option Z :=
  match hexval a, hexval b, hexval c, hexval d with
  | Some x, Some y, Some z, Some w => Some (((x * 16 + y) * 16 + z) * 16 + w)
  | _, _, _, _ => None
  end.

(** The one-character escapes after a backslash. *)
Definition escape (c : codepoint) : option codepoint :=
  match c with
  | 34 => Some 34   | 92 => Some 92   | 47 => Some 47
  | 98 => Some 8    | 102 => Some 12  | 110 => Some 10
  | 114 => Some 13  | 116 => Some 9
  | _ => None
  end.

(** The body of a string literal, after its opening quote: the decoded text
    and the input after the closing quote; [None] when it is malformed. *)
Fixpoint scanstring (s : str) (acc : str) : option (str * str) :=
  match s with
  | [] => None
  | 34 :: r => Some (rev acc, r)
  | 92 :: 117 :: a :: b :: c :: d :: r =>
      match hex4 a b c d with
      | None => None
      | Some uni =>
          let single := scanstring r (uni :: acc) in
          if (55296 <=? uni) && (uni <=? 56319) then
            match r with
            | 92 :: 117 :: a2 :: b2 :: c2 :: d2 :: r2 =>
                match hex4 a2 b2 c2 d2 with
                | None => None
                | Some uni2 =>
                    if (56320 <=? uni2) && (uni2 <=? 57343) then
                      scanstring r2
                        (65536
                         + Z.lor (Z.shiftl (uni - 55296) 10) (uni2 - 56320)
                         :: acc)
                    else single
                end
            | _ => single
            end
          else single
      end
  | 92 :: e :: r =>
      match escape e with
      | Some c => scanstring r (c :: acc)
      | None => None
      end
  | 92 :: [] => None
  | c :: r => if c <? 32 then None else scanstring r (c :: acc)
  end.

Fixpoint span_digits (s : str) : str * str :=
  match s with
  | c :: r =>
      if is_digit c then let (ds, rest) := span_digits r in (c :: ds, rest)
      else ([], s)
  | [] => ([], [])
  end.

Definition digits_value (ds : str) : Z :=
  fold_left (fun n c => n * 10 + (c - 48)) ds 0.

(** The integer part, after the sign: a single 0, or a non-zero digit and
    any digits; its digits and the rest of the input. *)
Definition match_integer (s : str) : option (str * str) :=
  match s with
  | 48 :: r => Some ([48], r)
  | c :: _ =>
      if is_digit c then Some (span_digits s) else None
  | [] => None
  end.

(** The optional fraction: a dot and at least one digit. *)
Definition match_frac (s : str) : str * str :=
  match s with
  | 46 :: r =>
      match span_digits r with
      | ([], _) => ([], s)
      | (ds, rest) => (46 :: ds, rest)
      end
  | _ => ([], s)
  end.

(** The optional exponent: e or E, an optional sign, at least one digit. *)
Definition match_exp (s : str) : str * str :=
  match s with
  | e :: r =>
      if (e =? 101) || (e =? 69) then
        let (sign, r') :=
          match r with
          | c :: r' => if (c =? 45) || (c =? 43) then ([c], r') else ([], r)
          | [] => ([], r)
          end in
        match span_digits r' with
        | ([], _) => ([], s)
        | (ds, rest) => (e :: sign ++ ds, rest)
        end
      else ([], s)
  | [] => ([], s)
  end.

(** [int(literal)]: the conversion refuses an integer with more digits
    than the limit, when there is a limit. *)
Definition parse_int (max_digits : nat) (neg : bool) (int : str)
  : result pyval :=
  if ((0 <? max_digits) && (max_digits <? List.length int))%nat
  then Raise (ValueError (List.length int))
  else let n := digits_value int in Ok (PInt (if neg then - n else n)).

(** A number at the head of the input, if there is one: its value, or the
    exception its conversion raises, and the rest of the input. *)
Definition match_number (max_digits : nat) (s : str)
  : option (result pyval * str) :=
  let (neg, s1) :=
    match s with 45 :: r => (true, r) | _ => (false, s) end in
  match match_integer s1 with
  | None => None
  | Some (int, s2) =>
      let (frac, s3) := match_frac s2 in
      let (exp, s4) := match_exp s3 in
      match frac, exp with
      | [], [] => Some (parse_int max_digits neg int, s4)
      | _, _ =>
          Some (Ok (PFloat ((if neg then [45] else []) ++ int ++ frac ++ exp)),
                s4)
      end
  end.

(** [scan_once]: one value at the head of the input.  An array or an
    object is entered only while fewer than [max_depth] are open. *)
Fixpoint scan_once (max_digits max_depth : nat) (fuel depth : nat) (s : str)
  : result (pyval * str) :=
  match fuel with
  | O => Raise JSONDecodeError
  | S fuel =>
      match s with
      | 34 :: r =>
          match scanstring r [] with
          | Some (t, rest) => Ok (PStr t, rest)
          | None => Raise JSONDecodeError
          end
      | 123 :: r =>
          if (max_depth <=? depth)%nat then Raise (RecursionError true)
          else
            match skip_ws r with
            | 125 :: rest => Ok (PDict [], rest)
            | r' =>
                match parse_pairs max_digits max_depth fuel (S depth) r' []
                with
                | Ok (d, rest) => Ok (PDict d, rest)
                | Raise e => Raise e
                end
            end
      | 91 :: r =>
          if (max_depth <=? depth)%nat then Raise (RecursionError false)
          else
            match skip_ws r with
            | 93 :: rest => Ok (PList [], rest)
            | r' =>
                match parse_items max_digits max_depth fuel (S depth) r' []
                with
                | Ok (l, rest) => Ok (PList l, rest)
                | Raise e => Raise e
                end
            end
      | _ =>
          if startswith (lit "null") s then Ok (PNone, skipn 4 s)
          else if startswith (lit "true") s then Ok (PBool true, skipn 4 s)
          else if startswith (lit "false") s then Ok (PBool false, skipn 5 s)
          else
            match match_number max_digits s with
            | Some (Ok v, rest) => Ok (v, rest)
            | Some (Raise e, _) => Raise e
            | None =>
                if startswith (lit "NaN") s
                then Ok (PFloat (lit "NaN"), skipn 3 s)
                else if startswith (lit "Infinity") s
                then Ok (PFloat (lit "Infinity"), skipn 8 s)
                else if startswith (lit "-Infinity") s
                then Ok (PFloat (lit "-Infinity"), skipn 9 s)
                else Raise JSONDecodeError
            end
      end
  end

(** The items of an array, from the first one to the closing bracket. *)
with parse_items (max_digits max_depth : nat) (fuel depth : nat) (s : str)
    (acc : list pyval) : result (list pyval * str) :=
  match fuel with
  | O => Raise JSONDecodeError
  | S fuel =>
      match scan_once max_digits max_depth fuel depth s with
      | Raise e => Raise e
      | Ok (v, rest) =>
          match skip_ws rest with
          | 93 :: rest' => Ok (rev (v :: acc), rest')
          | 44 :: rest' =>
              parse_items max_digits max_depth fuel depth (skip_ws rest')
                          (v :: acc)
          | _ => Raise JSONDecodeError
          end
      end
  end

(** The pairs of an object, from the first key to the closing brace. *)
with parse_pairs (max_digits max_depth : nat) (fuel depth : nat) (s : str)
    (acc : dict) : result (dict * str) :=
  match fuel with
  | O => Raise JSONDecodeError
  | S fuel =>
      match s with
      | 34 :: r =>
          match scanstring r [] with
          | None => Raise JSONDecodeError
          | Some (key, rest) =>
              match skip_ws rest with
              | 58 :: rest1 =>
                  match scan_once max_digits max_depth fuel depth
                                  (skip_ws rest1) with
                  | Raise e => Raise e
                  | Ok (v, rest2) =>
                      match skip_ws rest2 with
                      | 125 :: rest3 => Ok (dict_set key v acc, rest3)
                      | 44 :: rest3 =>
                          parse_pairs max_digits max_depth fuel depth
                                      (skip_ws rest3) (dict_set key v acc)
                      | _ => Raise JSONDecodeError
                      end
                  end
              | _ => Raise JSONDecodeError
              end
          end
      | _ => Raise JSONDecodeError
      end
  end.

(** [json.loads(s)] *)
Definition loads (max_digits max_depth : nat) (s : str) : result pyval :=
  if startswith [65279] s then Raise JSONDecodeError
  else
    match scan_once max_digits max_depth (2 * List.length s + 2) 0
                    (skip_ws s) with
    | Ok (v, rest) =>
        match skip_ws rest with
        | [] => Ok v
        | _ :: _ => Raise JSONDecodeError
        end
    | Raise e => Raise e
    end.

End Json.

(** The decimal digits of a number. *)
Definition decimal (n : nat) : str :=
  map (fun a => Z.of_N (N_of_ascii a))
      (list_ascii_of_string (NilZero.string_of_uint (Nat.to_uint n))).

(** CPython 3.11 with its defaults: integers of up to 4300 digits, and
    [json.loads] called from a script with the default recursion limit of
    1000, which leaves it 994 nested arrays and objects. *)
Definition cpython : interpreter :=
  {| int_max_str_digits := 4300;
     recursion_limit := 994;
     message := fun e =>
       match e with
       | ValueError digits =>
           lit "Exceeds the limit (4300 digits) for integer string conversion: value has "
           ++ decimal digits
           ++ lit " digits; use sys.set_int_max_str_digits() to increase the limit"
       | RecursionError in_object =>
           lit "maximum recursion depth exceeded while decoding a JSON "
           ++ (if in_object then lit "object" else lit "array")
           ++ lit " from a unicode string"
       | JSONDecodeError => lit "Expecting value"
       | ClientError description => description
       end |}.

(** ** [bytes.decode("utf-8", errors=...)]

    CPython's UTF-8 decoder.  [utf8_scan] yields the decoded characters in
    order, with [None] at each place where the decoder calls the error
    handler: an invalid start byte (one byte skipped), an invalid
    continuation byte (the bytes before it skipped), or an unexpected end of
    data (all remaining bytes skipped). *)

Definition byte_val (b : byte) : Z := Z.of_N (Byte.to_N b).

Definition is_continuation (b : byte) : bool :=
  (128 <=? byte_val b) && (byte_val b <? 192).

Fixpoint utf8_scan (s : bytes) : list (option codepoint) :=
  match s with
  | [] => []
  | b1 :: r1 =>
      let ch := byte_val b1 in
      if ch <? 128 then Some ch :: utf8_scan r1
      else if ch <? 194 then None :: utf8_scan r1
      else if ch <? 224 then
        match r1 with
        | [] => [None]
        | b2 :: r2 =>
            if is_continuation b2
            then Some (Z.shiftl ch 6 + byte_val b2 - 12416) :: utf8_scan r2
            else None :: utf8_scan r1
        end
      else if ch <? 240 then
        match r1 with
        | [] => [None]
        | b2 :: r2 =>
            let ch2 := byte_val b2 in
            if negb (is_continuation b2)
               || (if ch2 <? 160 then ch =? 224 else ch =? 237)
            then None :: utf8_scan r1
            else
              match r2 with
              | [] => [None]
              | b3 :: r3 =>
                  if is_continuation b3
                  then Some (Z.shiftl ch 12 + Z.shiftl ch2 6 + byte_val b3
                             - 925824) :: utf8_scan r3
                  else None :: utf8_scan r2
              end
        end
      else if ch <? 245 then
        match r1 with
        | [] => [None]
        | b2 :: r2 =>
            let ch2 := byte_val b2 in
            if negb (is_continuation b2)
               || (if ch2 <? 144 then ch =? 240 else ch =? 244)
            then None :: utf8_scan r1
            else
              match r2 with
              | [] => [None]
              | b3 :: r3 =>
                  if negb (is_continuation b3) then None :: utf8_scan r2
                  else
                    match r3 with
                    | [] => [None]
                    | b4 :: r4 =>
                        if is_continuation b4
                        then Some (Z.shiftl ch 18 + Z.shiftl ch2 12
                                   + Z.shiftl (byte_val b3) 6 + byte_val b4
                                   - 63447168) :: utf8_scan r4
                        else None :: utf8_scan r3
                    end
              end
        end
      else None :: utf8_scan r1
  end.

(** The [errors] argument: what the handler puts in place of the bytes it
    skips. *)
Inductive error_handler : Type := ignore | replace.

Definition on_error (errors : error_handler) : str :=
  match errors with
  | ignore => []
  | replace => [65533]
  end.

(** [chunk.decode("utf-8", errors=errors)] *)
Definition decode (errors : error_handler) (chunk : bytes) : str :=
  flat_map (fun o => match o with Some c => [c] | None => on_error errors end)
           (utf8_scan chunk).

(** [s.encode("utf-8")], for text without surrogates. *)
Definition byte_of (n : Z) : byte :=
  match Byte.of_N (Z.to_N n) with Some b => b | None => x00 end.

Definition encode_char (c : codepoint) : bytes :=
  if c <? 128 then [byte_of c]
  else if c <? 2048 then
    [byte_of (192 + Z.shiftr c 6); byte_of (128 + Z.land c 63)]
  else if c <? 65536 then
    [byte_of (224 + Z.shiftr c 12); byte_of (128 + Z.land (Z.shiftr c 6) 63);
     byte_of (128 + Z.land c 63)]
  else
    [byte_of (240 + Z.shiftr c 18); byte_of (128 + Z.land (Z.shiftr c 12) 63);
     byte_of (128 + Z.land (Z.shiftr c 6) 63); byte_of (128 + Z.land c 63)].

Definition encode (s : str) : bytes := flat_map encode_char s.

(** ** The world around the proxy

    What a call of the proxy does to the outside is recorded as a trace of
    actions, in program order.  A send is the call of [ws.send_json] or
    [ws.send_str]; the calls are taken to return. *)

(** The arguments of [session.post]. *)
Record request : Type := {
  post_url : str;
  post_json : option pyval;      (* the argument json= *)
  post_data : option pyval;      (* the argument data= *)
  post_headers : list (str * str)
}.

Inductive action : Type :=
| Post (r : request)          (* session.post(...) *)
| ReadText                    (* await response.text() *)
| ReadChunk (chunk : bytes)   (* the next item of response.content.iter_any() *)
| CheckClosed (closed : bool) (* the value read from ws.closed *)
| SendJson (v : pyval)        (* await ws.send_json(v) *)
| SendStr (s : str).          (* await ws.send_str(s) *)

(** One item of [response.content.iter_any()], with the value [ws.closed]
    has when the loop body reads it for this item. *)
Record arrival : Type := {
  chunk : bytes;
  ws_closed : bool
}.

(** An [aiohttp.ClientResponse]: its status, its Content-Type header if it
    has one, what [text()] returns, the chunks [content.iter_any()] yields
    and, when the body cannot be read to its end, the exception the
    iteration raises after them. *)
Record ClientResponse : Type := {
  status : Z;
  content_type_header : option str;
  text : str;
  content : list arrival;
  content_error : option exn
}.

(** What [session.post] comes to: an exception or a response. *)
Inductive upstream : Type :=
| Raised (e : exn)
| Responded (response : ClientResponse).

(** ** [SSEToWebSocketProxy] *)

Record SSEToWebSocketProxy : Type := { sse_url : str }.

Section Proxy.

(** The interpreter the proxy runs in. *)
Variable py : interpreter.

(** [json.loads(s)] in this interpreter. *)
Definition json_loads (s : str) : result pyval :=
  Json.loads (int_max_str_digits py) (recursion_limit py) s.

(** [str(e)] *)
Definition exn_str (e : exn) : str :=
  match e with
  | ClientError description => description
  | _ => message py e
  end.

(** The body of the [for line in event_str.split("\n")] loop, on the pair
    of [event] and [data_lines]. *)
Definition parse_line (st : dict * list str) (line : str) : dict * list str :=
  let '(event, data_lines) := st in
  let line := strip line in
  if negb (truthy line) then st
  else if startswith (lit "data:") line then
    (event, data_lines ++ [strip (skipn 5 line)])
  else if startswith (lit "event:") line then
    (dict_set (lit "event") (PStr (strip (skipn 6 line))) event, data_lines)
  else if startswith (lit "id:") line then
    (dict_set (lit "id") (PStr (strip (skipn 3 line))) event, data_lines)
  else if startswith (lit "retry:") line then
    (dict_set (lit "retry") (PStr (strip (skipn 6 line))) event, data_lines)
  else if negb (startswith (lit ":") line) then
    (event, data_lines ++ [line])
  else st.

(** [try: json.loads(s) except json.JSONDecodeError: s]: any other
    exception of [json.loads] leaves the statement. *)
Definition loads_or_raw (s : str) : result pyval :=
  match json_loads s with
  | Ok v => Ok v
  | Raise JSONDecodeError => Ok (PStr s)
  | Raise e => Raise e
  end.

Definition _parse_sse_event (event_str : str) : result (option dict) :=
  if negb (truthy (strip event_str)) then Ok None
  else
    let '(event, data_lines) :=
      fold_left parse_line (split_char LF event_str) ([], []) in
    let filled :=
      if truthy data_lines then
        let data_str := join (lit "\n") data_lines in
        match loads_or_raw data_str with
        | Ok v => Ok (dict_set (lit "data") v event)
        | Raise e => Raise e
        end
      else Ok event in
    match filled with
    | Ok event => Ok (if truthy event then Some event else None)
    | Raise e => Raise e
    end.

(** [if event_data: await ws.send_json(event_data)] *)
Definition send_event (event_data : option dict) : list action :=
  match event_data with
  | Some event => if truthy event then [SendJson (PDict event)] else []
  | None => []
  end.

(** The loop [while "\n\n" in buffer]: the sends it makes, and the buffer
    it leaves or the exception that leaves it.  Each round shortens the
    buffer, so [length buffer] rounds are enough ([drain_buffer] below). *)
Fixpoint drain_rounds (rounds : nat) (buffer : str)
  : list action * result str :=
  match rounds with
  | O => ([], Ok buffer)
  | S rounds =>
      match split_once (lit "\n\n") buffer with
      | None => ([], Ok buffer)
      | Some (event_str, buffer) =>
          match _parse_sse_event event_str with
          | Raise e => ([], Raise e)
          | Ok event_data =>
              let '(sent, kept) := drain_rounds rounds buffer in
              (send_event event_data ++ sent, kept)
          end
      end
  end.

Definition drain_buffer (buffer : str) : list action * result str :=
  drain_rounds (List.length buffer) buffer.

(** The loop [async for chunk in response.content.iter_any()], from a
    given buffer: its trace, and the buffer it ends with or the exception
    that leaves it.  [ending] is the exception the iteration raises after
    the last chunk, if any. *)
Fixpoint stream_loop (buffer : str) (content : list arrival)
    (ending : option exn) : list action * result str :=
  match content with
  | [] =>
      match ending with
      | Some e => ([], Raise e)
      | None => ([], Ok buffer)
      end
  | a :: content =>
      if ws_closed a then ([ReadChunk (chunk a); CheckClosed true], Ok buffer)
      else
        let buffer := buffer ++ decode ignore (chunk a) in
        match drain_buffer buffer with
        | (sent, Raise e) =>
            (ReadChunk (chunk a) :: CheckClosed false :: sent, Raise e)
        | (sent, Ok buffer) =>
            let '(later, kept) := stream_loop buffer content ending in
            (ReadChunk (chunk a) :: CheckClosed false :: sent ++ later, kept)
        end
  end.

(** The statements after the loop, on the buffer that is left: the send
    they make and the exception that leaves them, if any. *)
Definition flush_buffer (buffer : str) : list action * option exn :=
  if truthy (strip buffer) then
    match _parse_sse_event buffer with
    | Ok event_data => (send_event event_data, None)
    | Raise e => ([], Some e)
    end
  else ([], None).

(** The trace of the method and the exception that leaves it, if any. *)
Definition _handle_sse_stream (response : ClientResponse)
  : list action * option exn :=
  match stream_loop [] (content response) (content_error response) with
  | (trace, Raise e) => (trace, Some e)
  | (trace, Ok buffer) =>
      let '(last, raised) := flush_buffer buffer in
      (trace ++ last, raised)
  end.

Definition error_frame (status : option Z) (message : str) : pyval :=
  match status with
  | Some st =>
      PDict [(lit "error", PBool true); (lit "status", PInt st);
             (lit "message", PStr message)]
  | None => PDict [(lit "error", PBool true); (lit "message", PStr message)]
  end.

(** The arguments [session.post] is called with for a payload. *)
Definition post_request (self : SSEToWebSocketProxy) (payload : pyval)
  : request :=
  {| post_url := sse_url self;
     post_json := if isinstance_dict payload then Some payload else None;
     post_data := if isinstance_str payload then Some payload else None;
     post_headers := [(lit "Content-Type", lit "application/json");
                      (lit "Accept", lit "text/event-stream")] |}.

(** The handlers of lines 86 to 91: the frame sent for an exception. *)
Definition send_error (e : exn) : list action :=
  [SendJson (error_frame None (exn_str e))].

(** The method from the call of [session.post] on, for the payload made
    from the message. *)
Definition forward_payload (self : SSEToWebSocketProxy) (payload : pyval)
    (outcome : upstream) : list action :=
  Post (post_request self payload)
  :: match outcome with
     | Raised e => send_error e
     | Responded response =>
         if negb (status response =? 200) then
           [ReadText; SendJson (error_frame (Some (status response))
                                            (text response))]
         else
           let content_type :=
             match content_type_header response with
             | Some v => v
             | None => []
             end in
           if str_in (lit "text/event-stream") content_type
           then
             let '(trace, raised) := _handle_sse_stream response in
             trace ++ match raised with
                      | Some e => send_error e
                      | None => []
                      end
           else [ReadText; SendStr (text response)]
     end.

(** [outcome] is what [session.post] comes to, if the call is made. *)
Definition _forward_to_sse (self : SSEToWebSocketProxy) (data : str)
    (outcome : upstream) : list action :=
  match loads_or_raw data with
  | Raise e => send_error e
  | Ok payload => forward_payload self payload outcome
  end.

(** ** Reading traces *)

(** The frames sent over the connection, in order. *)
Definition is_send (a : action) : bool :=
  match a with SendJson _ | SendStr _ => true | _ => false end.

Definition sent (trace : list action) : list action := filter is_send trace.

(** The chunks read from the upstream body, in order. *)
Fixpoint chunks_read (trace : list action) : list bytes :=
  match trace with
  | [] => []
  | ReadChunk c :: t => c :: chunks_read t
  | _ :: t => chunks_read t
  end.

(** A response to stream, from the chunks of its body, read to the end
    while the connection stays open. *)
Definition open_chunk (c : bytes) : arrival :=
  {| chunk := c; ws_closed := false |}.

Definition event_stream (chunks : list bytes) : ClientResponse :=
  {| status := 200;
     content_type_header := Some (lit "text/event-stream");
     text := [];
     content := map open_chunk chunks;
     content_error := None |}.

(** ** The vocabulary of the properties *)

(** A line that is blank once stripped, or a comment: it starts with a
    colon. *)
Definition comment_or_blank (line : str) : bool :=
  negb (truthy (strip line)) || startswith (lit ":") (strip line).

(** Whether any field has been set so far. *)
Definition any_field (st : dict * list str) : bool :=
  truthy (fst st) || truthy (snd st).

(** The value a line contributes to the data of its event: the text after
    a [data:] prefix, or a whole line that has no known prefix and is
    neither blank nor a comment. *)
Definition data_value (line : str) : option str :=
  let line := strip line in
  if startswith (lit "data:") line then Some (strip (skipn 5 line))
  else if negb (truthy line)
          || startswith (lit "event:") line
          || startswith (lit "id:") line
          || startswith (lit "retry:") line
          || startswith (lit ":") line
  then None
  else Some line.

Fixpoint data_values (lines : list str) : list str :=
  match lines with
  | [] => []
  | line :: lines =>
      match data_value line with
      | Some v => v :: data_values lines
      | None => data_values lines
      end
  end.

(** An attribute of an Event, or of no Event. *)
Definition event_attr (key : str) (event_data : option dict) : option pyval :=
  match event_data with
  | Some event => dict_get key event
  | None => None
  end.



(** The code points a [str] can be encoded from: no surrogates. *)
Definition is_scalar (c : codepoint) : bool :=
  (0 <=? c) && (c <? 1114112) && negb ((55296 <=? c) && (c <? 57344)).

(** The proxy of the examples, with the URL of the program's help text. *)
Definition proxy : SSEToWebSocketProxy :=
  {| sse_url := lit "http://localhost:8080/api/sse" |}.

(** The body [data: é] and a blank line, in UTF-8, whole and cut between
    the two bytes of the é. *)
Definition body_e_acute : bytes := encode (lit "data: " ++ [233] ++ lit "\n\n").
Definition body_e_acute_head : bytes := encode (lit "data: ") ++ [xc3].
Definition body_e_acute_tail : bytes := [xa9; x0a; x0a].

(** An integer literal of 4301 digits. *)
Definition nines : str := repeat 57 4301.


(** A response with status 500 and body [boom], which announces an event
    stream and has one ready to read. *)
Definition boom : ClientResponse :=
  {| status := 500;
     content_type_header := Some (lit "text/event-stream");
     text := lit "boom";
     content := [open_chunk (encode (lit "data: 1\n\n"))];
     content_error := None |}.

(** The values read from [ws.closed], in order. *)
Fixpoint checks (trace : list action) : list bool :=
  match trace with
  | [] => []
  | CheckClosed b :: t => b :: checks t
  | _ :: t => checks t
  end.

(** No frame is sent once [ws.closed] has been read as true. *)
Fixpoint no_send_after_closed (trace : list action) : bool :=
  match trace with
  | [] => true
  | CheckClosed true :: t => negb (existsb is_send t)
  | _ :: t => no_send_after_closed t
  end.

(** Every send comes directly after a read of [ws.closed]. *)
Fixpoint checked_before_each_send (checked : bool) (trace : list action)
  : bool :=
  match trace with
  | [] => true
  | CheckClosed _ :: t => checked_before_each_send true t
  | a :: t =>
      (if is_send a then checked else true) && checked_before_each_send false t
  end.

(** A stream of two chunks: three events in the first, the last of them
    not yet delimited; the connection is found closed when the second chunk
    arrives. *)
Definition closing_stream : ClientResponse :=
  {| status := 200;
     content_type_header := Some (lit "text/event-stream");
     text := [];
     content :=
       [ {| chunk := encode (lit "data: a\n\ndata: b\n\ndata: c");
            ws_closed := false |};
         {| chunk := encode (lit "\n\n"); ws_closed := true |} ];
     content_error := None |}.

(** The connection is found open at every chunk. *)
Definition all_open (content : list arrival) : bool :=
  forallb (fun a => negb (ws_closed a)) content.

(** A byte no UTF-8 sequence starts with: a continuation byte, C0, C1, or
    F5 and above. *)
Definition invalid_start (b : byte) : bool :=
  ((128 <=? byte_val b) && (byte_val b <? 194)) || (245 <=? byte_val b).

(** The claim as the specification states it: the buffer grows by the
    chunk decoded with invalid sequences replaced. *)
Definition buffer_grows_by_replaced (buffer : str) (c : bytes) : Prop :=
  snd (stream_loop buffer [open_chunk c] None)
  = Ok (buffer ++ decode replace c).


(** The requests posted, in order. *)
Fixpoint posts (trace : list action) : list request :=
  match trace with
  | [] => []
  | Post r :: t => r :: posts t
  | _ :: t => posts t
  end.

(** Whether [response.text()] is awaited. *)
Definition reads_text (trace : list action) : bool :=
  existsb (fun a => match a with ReadText => true | _ => false end) trace.

(** [s.split(sep)] for the separator of blocks, by rounds of
    [split_once]; [length s] rounds are enough. *)
Fixpoint split_rounds (rounds : nat) (sep s : str) : list str :=
  match rounds with
  | O => [s]
  | S rounds =>
      match split_once sep s with
      | None => [s]
      | Some (a, b) => a :: split_rounds rounds sep b
      end
  end.

Definition split (sep s : str) : list str :=
  split_rounds (List.length s) sep s.

(** The frames of blocks handled one after the other, up to the first
    block on which [_parse_sse_event] raises, with that exception. *)
Fixpoint blocks_frames (blocks : list str) : list action * option exn :=
  match blocks with
  | [] => ([], None)
  | block :: blocks =>
      match _parse_sse_event block with
      | Raise e => ([], Some e)
      | Ok event_data =>
          let '(frames, raised) := blocks_frames blocks in
          (send_event event_data ++ frames, raised)
      end
  end.

(** The value a line gives to the field with the given prefix, if it has
    that prefix. *)
Definition field_value (prefix line : str) : option str :=
  let line := strip line in
  if startswith prefix line
  then Some (strip (skipn (List.length prefix) line))
  else None.

(** The value of the last line with the prefix. *)
Fixpoint last_field (prefix : str) (lines : list str) : option str :=
  match lines with
  | [] => None
  | line :: lines =>
      match last_field prefix lines with
      | Some v => Some v
      | None => field_value prefix line
      end
  end.

Definition keys (d : dict) : list str := map fst d.

(** The keys an Event can have. *)
Definition event_keys : list str :=
  [lit "event"; lit "id"; lit "retry"; lit "data"].

(** An Event: what [_parse_sse_event] returns for some block. *)
Definition is_event (event : dict) : Prop :=
  exists block, _parse_sse_event block = Ok (Some event).

(** What the stream handler does: it reads chunks, looks at [ws.closed]
    and sends Events as JSON. *)
Definition stream_action (a : action) : Prop :=
  match a with
  | ReadChunk _ | CheckClosed _ => True
  | SendJson (PDict event) => is_event event
  | _ => False
  end.

(** The exception of a result, if it is one. *)
Definition exception_of {A} (r : result A) : option exn :=
  match r with
  | Ok _ => None
  | Raise e => Some e
  end.

(** * Properties *)

(** ** Facts about the [str] builtins *)

Lemma str_eqb_eq (a b : str) : str_eqb a b = true <-> a = b.
Proof.
  revert b; induction a as [|x a IH]; intros [|y b]; simpl;
    try (split; [discriminate | discriminate]); try tauto.
  rewrite andb_true_iff, Z.eqb_eq, IH.
  split; [intros [-> ->]; reflexivity | intros H; inversion H; auto].
Qed.

Lemma str_eqb_refl (a : str) : str_eqb a a = true.
Proof. apply str_eqb_eq; reflexivity. Qed.

Lemma str_eqb_sym (a b : str) : str_eqb a b = str_eqb b a.
Proof.
  destruct (str_eqb a b) eqn:E.
  - apply str_eqb_eq in E; subst; symmetry; apply str_eqb_refl.
  - destruct (str_eqb b a) eqn:E'; [|reflexivity].
    apply str_eqb_eq in E'; subst; rewrite str_eqb_refl in E; discriminate.
Qed.

Lemma startswith_prefix (prefix s : str) :
  startswith prefix s = true <-> exists r, s = prefix ++ r.
Proof.
  revert s; induction prefix as [|p prefix IH]; intros s; simpl.
  - split; [intros _; exists s; reflexivity | reflexivity].
  - destruct s as [|c s].
    + split; [discriminate | intros [r H]; discriminate].
    + rewrite andb_true_iff, Z.eqb_eq, IH. split.
      * intros [-> [r ->]]. exists r; reflexivity.
      * intros [r H]. inversion H; subst. split; [reflexivity | eauto].
Qed.

Lemma startswith_app (prefix s t : str) :
  startswith prefix s = true -> startswith prefix (s ++ t) = true.
Proof.
  rewrite !startswith_prefix. intros [r ->].
  exists (r ++ t). now rewrite app_assoc.
Qed.

Lemma startswith_length (prefix s : str) :
  startswith prefix s = true -> (List.length prefix <= List.length s)%nat.
Proof.
  rewrite startswith_prefix. intros [r ->]. rewrite length_app. lia.
Qed.

Lemma startswith_long_app (prefix s t : str) :
  (List.length prefix <= List.length s)%nat ->
  startswith prefix (s ++ t) = startswith prefix s.
Proof.
  revert s; induction prefix as [|p prefix IH]; intros [|c s]; simpl; intros H;
    try reflexivity; try lia.
  rewrite IH by lia. reflexivity.
Qed.

Lemma split_once_eq (sep s : str) :
  split_once sep s =
  if startswith sep s then Some ([], skipn (List.length sep) s)
  else match s with
       | [] => None
       | c :: r =>
           match split_once sep r with
           | Some (a, b) => Some (c :: a, b)
           | None => None
           end
       end.
Proof. destruct s; reflexivity. Qed.

(** [split_once] cuts at an occurrence of the separator. *)
Lemma split_once_parts (sep s a b : str) :
  split_once sep s = Some (a, b) -> s = a ++ sep ++ b.
Proof.
  revert a b; induction s as [|c s IH]; intros a b; rewrite split_once_eq.
  - destruct (startswith sep []) eqn:E; [|discriminate].
    apply startswith_prefix in E. destruct E as [r E].
    symmetry in E. apply app_eq_nil in E. destruct E as [-> ->].
    simpl. intros H; inversion H; reflexivity.
  - destruct (startswith sep (c :: s)) eqn:E.
    + apply startswith_prefix in E. destruct E as [r E].
      intros H; inversion H; subst a b. rewrite E.
      rewrite skipn_app, skipn_all, Nat.sub_diag. reflexivity.
    + destruct (split_once sep s) as [[a' b']|] eqn:E'; [|discriminate].
      intros H; inversion H; subst a b.
      simpl. f_equal. apply IH. reflexivity.
Qed.

Lemma split_once_app (sep s t a b : str) :
  split_once sep s = Some (a, b) ->
  split_once sep (s ++ t) = Some (a, b ++ t).
Proof.
  revert a b; induction s as [|c s IH]; intros a b; rewrite split_once_eq.
  - destruct (startswith sep []) eqn:E; [|discriminate].
    apply startswith_prefix in E. destruct E as [r E].
    symmetry in E. apply app_eq_nil in E. destruct E as [-> ->].
    simpl. intros H; inversion H. rewrite split_once_eq. reflexivity.
  - destruct (startswith sep (c :: s)) eqn:E.
    + intros H; inversion H; subst a b.
      rewrite split_once_eq, (startswith_app _ _ _ E).
      pose proof (startswith_length _ _ E) as L.
      rewrite skipn_app.
      replace (List.length sep - List.length (c :: s))%nat with 0%nat by lia.
      reflexivity.
    + destruct (split_once sep s) as [[a' b']|] eqn:E'; [|discriminate].
      intros H; inversion H; subst a b.
      pose proof (split_once_parts _ _ _ _ E') as P.
      assert (L : (List.length sep <= List.length (c :: s))%nat).
      { rewrite P. simpl. rewrite !length_app. lia. }
      rewrite split_once_eq, (startswith_long_app _ _ t L), E.
      simpl. rewrite (IH _ _ eq_refl). reflexivity.
Qed.

Lemma split_once_finds (sep p q : str) :
  split_once sep (p ++ sep ++ q) <> None.
Proof.
  induction p as [|c p IH]; rewrite split_once_eq.
  - cbn [app].
    assert (H : startswith sep (sep ++ q) = true)
      by (apply startswith_prefix; eauto).
    rewrite H. discriminate.
  - destruct (startswith sep ((c :: p) ++ sep ++ q)); [discriminate|].
    cbn [app]. destruct (split_once sep (p ++ sep ++ q)) as [[a b]|];
      [discriminate | contradiction].
Qed.

(** [sub in s] holds exactly when [sub] occurs somewhere in [s]. *)
Lemma str_in_occurs (sub s : str) :
  str_in sub s = true <-> exists p q, s = p ++ sub ++ q.
Proof.
  unfold str_in. split.
  - destruct (split_once sub s) as [[a b]|] eqn:E; [|discriminate].
    intros _. apply split_once_parts in E. eauto.
  - intros [p [q ->]]. pose proof (split_once_finds sub p q) as F.
    destruct (split_once sub (p ++ sub ++ q)); [reflexivity | contradiction].
Qed.

(** ** Whitespace and [strip] *)

Lemma lstrip_nil (s : str) : lstrip s = [] <-> forallb isspace s = true.
Proof.
  induction s as [|c s IH]; simpl; [tauto|].
  destruct (isspace c); simpl; [exact IH|]. split; discriminate.
Qed.

Lemma lstrip_head (s r : str) (c : codepoint) :
  lstrip s = c :: r -> isspace c = false.
Proof.
  induction s as [|x s IH]; simpl; [discriminate|].
  destruct (isspace x) eqn:E; [exact IH|].
  intros H; inversion H; subst; exact E.
Qed.

Lemma forallb_rev {A} (f : A -> bool) (l : list A) :
  forallb f (rev l) = forallb f l.
Proof.
  induction l as [|x l IH]; [reflexivity|].
  simpl. rewrite forallb_app, IH. simpl. rewrite andb_true_r, andb_comm.
  reflexivity.
Qed.

Lemma rev_nil_iff {A} (l : list A) : rev l = [] <-> l = [].
Proof.
  split; [|intros ->; reflexivity].
  intros H. apply (f_equal (@rev A)) in H. rewrite rev_involutive in H.
  exact H.
Qed.

(** [s.strip()] is empty exactly when [s] is whitespace throughout. *)
Lemma strip_nil (s : str) : strip s = [] <-> forallb isspace s = true.
Proof.
  unfold strip, rstrip. split.
  - intros H. apply rev_nil_iff, lstrip_nil in H. rewrite forallb_rev in H.
    apply lstrip_nil.
    destruct (lstrip s) as [|c r] eqn:E; [reflexivity|].
    apply lstrip_head in E. simpl in H. rewrite E in H. discriminate.
  - intros H. apply lstrip_nil in H. rewrite H. reflexivity.
Qed.

Lemma truthy_strip (s : str) : truthy (strip s) = negb (forallb isspace s).
Proof.
  destruct (forallb isspace s) eqn:E.
  - apply strip_nil in E. rewrite E. reflexivity.
  - destruct (strip s) eqn:S; [|reflexivity].
    apply strip_nil in S. congruence.
Qed.

(** The lines of a text of whitespace are whitespace. *)
Lemma split_char_blank (sep : codepoint) (s : str) :
  forallb isspace s = true ->
  forallb (forallb isspace) (split_char sep s) = true.
Proof.
  induction s as [|c s IH]; [reflexivity|].
  simpl. rewrite andb_true_iff. intros [Hc Hs]. specialize (IH Hs).
  destruct (c =? sep); [exact IH|].
  destruct (split_char sep s) as [|l ls]; simpl in *.
  - rewrite Hc. reflexivity.
  - rewrite Hc. exact IH.
Qed.

Lemma lstrip_snoc_space (l : str) (c : codepoint) :
  isspace c = true ->
  lstrip (l ++ [c]) = if forallb isspace l then [] else lstrip l ++ [c].
Proof.
  intros Hc. induction l as [|x l IH]; simpl.
  - rewrite Hc. reflexivity.
  - destruct (isspace x); simpl; [exact IH | reflexivity].
Qed.

(** A trailing whitespace character does not change [strip]. *)
Lemma strip_snoc_space (l : str) (c : codepoint) :
  isspace c = true -> strip (l ++ [c]) = strip l.
Proof.
  intros Hc. unfold strip, rstrip. rewrite lstrip_snoc_space by exact Hc.
  destruct (forallb isspace l) eqn:E.
  - apply lstrip_nil in E. rewrite E. reflexivity.
  - rewrite rev_app_distr. simpl. rewrite Hc. reflexivity.
Qed.

Lemma lstrip_app (a b : str) :
  lstrip (a ++ b) = if forallb isspace a then lstrip b else lstrip a ++ b.
Proof.
  induction a as [|c a IH]; [reflexivity|].
  cbn [app lstrip forallb]. destruct (isspace c); [exact IH | reflexivity].
Qed.

(** Whitespace at either end of a text does not change [strip]. *)
Lemma strip_app_blank (l t : str) :
  forallb isspace t = true -> strip (l ++ t) = strip l.
Proof.
  revert l; induction t as [|c t IH]; intros l H.
  - rewrite app_nil_r. reflexivity.
  - cbn [forallb] in H. apply andb_true_iff in H. destruct H as [Hc Ht].
    change (c :: t) with ([c] ++ t). rewrite app_assoc, IH by exact Ht.
    apply strip_snoc_space, Hc.
Qed.

Lemma lstrip_split (s : str) :
  exists t, s = t ++ lstrip s /\ forallb isspace t = true.
Proof.
  induction s as [|c s [t [E B]]]; [exists []; auto|].
  cbn [lstrip]. destruct (isspace c) eqn:Hc.
  - exists (c :: t). cbn [forallb app]. rewrite Hc, B, <- E. auto.
  - exists []. auto.
Qed.

Lemma rstrip_split (s : str) :
  exists t, s = rstrip s ++ t /\ forallb isspace t = true.
Proof.
  unfold rstrip. destruct (lstrip_split (rev s)) as [t [E B]].
  exists (rev t). rewrite forallb_rev. split; [|exact B].
  rewrite <- rev_app_distr, <- E, rev_involutive. reflexivity.
Qed.

Lemma strip_rstrip (s : str) : strip (rstrip s) = strip s.
Proof.
  destruct (rstrip_split s) as [t [E B]].
  rewrite E at 2. symmetry. apply strip_app_blank, B.
Qed.

(** [rstrip] behind a prefix that ends in a colon. *)
Lemma rstrip_after_prefix (p w : str) :
  rstrip ((p ++ [58]) ++ w) = (p ++ [58]) ++ rstrip w.
Proof.
  unfold rstrip. rewrite rev_app_distr, lstrip_app.
  assert (R : rev (p ++ [58]) = 58 :: rev p)
    by (rewrite rev_app_distr; reflexivity).
  rewrite R. destruct (forallb isspace (rev w)) eqn:B.
  - apply lstrip_nil in B. rewrite B. cbn [lstrip].
    change (isspace 58) with false. cbn iota.
    rewrite <- R, rev_involutive. cbn [rev]. rewrite app_nil_r. reflexivity.
  - rewrite rev_app_distr, <- R, rev_involutive. reflexivity.
Qed.

Lemma split_char_no_sep (sep : codepoint) (s : str) :
  forallb (fun c => negb (c =? sep)) s = true -> split_char sep s = [s].
Proof.
  induction s as [|c s IH]; [reflexivity|].
  cbn [forallb split_char]. intros H. apply andb_true_iff in H.
  destruct H as [Hc Hs]. apply negb_true_iff in Hc.
  rewrite Hc, (IH Hs). reflexivity.
Qed.

(** ** UTF-8: decoding what was encoded *)

Lemma byte_val_of (n : Z) : 0 <= n < 256 -> byte_val (byte_of n) = n.
Proof.
  intros H. unfold byte_val, byte_of.
  destruct (Byte.of_N (Z.to_N n)) as [b|] eqn:E.
  - apply Byte.to_of_N in E. rewrite E. lia.
  - apply Byte.of_N_None_iff in E. lia.
Qed.

Lemma byte_val_range (b : byte) : 0 <= byte_val b < 256.
Proof. unfold byte_val. pose proof (Byte.to_N_bounded b). lia. Qed.

Lemma shiftr_div (c n : Z) : 0 <= n -> Z.shiftr c n = c / 2 ^ n.
Proof. intros H. apply Z.shiftr_div_pow2, H. Qed.

Lemma land_63 (c : Z) : Z.land c 63 = c mod 64.
Proof. change 63 with (Z.ones 6). rewrite Z.land_ones by lia. reflexivity. Qed.

Lemma shiftl_mul (c n : Z) : 0 <= n -> Z.shiftl c n = c * 2 ^ n.
Proof. intros H. apply Z.shiftl_mul_pow2, H. Qed.

Ltac bits_to_arith :=
  rewrite ?land_63, ?shiftr_div, ?shiftl_mul by lia;
  change (2 ^ 6) with 64 in *; change (2 ^ 12) with 4096 in *;
  change (2 ^ 18) with 262144 in *.

Ltac decide_tests :=
  repeat match goal with
    | |- context [?a <? ?b] =>
        first [ replace (a <? b) with true
                  by (symmetry; apply Z.ltb_lt; lia)
              | replace (a <? b) with false
                  by (symmetry; apply Z.ltb_ge; lia) ]
    | |- context [?a <=? ?b] =>
        first [ replace (a <=? b) with true
                  by (symmetry; apply Z.leb_le; lia)
              | replace (a <=? b) with false
                  by (symmetry; apply Z.leb_gt; lia) ]
    | |- context [?a =? ?b] =>
        first [ replace (a =? b) with true
                  by (symmetry; apply Z.eqb_eq; lia)
              | replace (a =? b) with false
                  by (symmetry; apply Z.eqb_neq; lia) ]
    end.

Lemma utf8_scan_encode_char (c : codepoint) (rest : bytes) :
  is_scalar c = true ->
  utf8_scan (encode_char c ++ rest) = Some c :: utf8_scan rest.
Proof.
  unfold is_scalar. rewrite !andb_true_iff, negb_true_iff, andb_false_iff.
  rewrite Z.leb_le, Z.ltb_lt, Z.leb_gt, Z.ltb_ge. intros [[L U] S].
  unfold encode_char.
  destruct (Z.ltb_spec c 128) as [H1|H1];
    [|destruct (Z.ltb_spec c 2048) as [H2|H2];
      [|destruct (Z.ltb_spec c 65536) as [H3|H3]]];
    cbn [app utf8_scan]; unfold is_continuation; bits_to_arith.
  - rewrite !byte_val_of by lia. decide_tests. reflexivity.
  - pose proof (Z.div_mod c 64 ltac:(lia)).
    pose proof (Z.mod_pos_bound c 64 ltac:(lia)).
    rewrite !byte_val_of by lia. bits_to_arith. decide_tests.
    cbn [andb negb orb]. do 2 f_equal. lia.
  - pose proof (Z.div_mod c 4096 ltac:(lia)).
    pose proof (Z.mod_pos_bound c 4096 ltac:(lia)).
    pose proof (Z.div_mod c 64 ltac:(lia)).
    pose proof (Z.mod_pos_bound c 64 ltac:(lia)).
    pose proof (Z.div_mod (c / 64) 64 ltac:(lia)).
    pose proof (Z.mod_pos_bound (c / 64) 64 ltac:(lia)).
    assert (c / 64 / 64 = c / 4096) by (rewrite Z.div_div by lia; reflexivity).
    rewrite !byte_val_of by lia. bits_to_arith.
    destruct (Z.ltb_spec (128 + (c / 64) mod 64) 160);
      decide_tests; cbn [andb negb orb]; do 2 f_equal; lia.
  - pose proof (Z.div_mod c 262144 ltac:(lia)).
    pose proof (Z.mod_pos_bound c 262144 ltac:(lia)).
    pose proof (Z.div_mod c 64 ltac:(lia)).
    pose proof (Z.mod_pos_bound c 64 ltac:(lia)).
    pose proof (Z.div_mod (c / 64) 64 ltac:(lia)).
    pose proof (Z.mod_pos_bound (c / 64) 64 ltac:(lia)).
    pose proof (Z.div_mod c 4096 ltac:(lia)).
    pose proof (Z.mod_pos_bound c 4096 ltac:(lia)).
    pose proof (Z.div_mod (c / 4096) 64 ltac:(lia)).
    pose proof (Z.mod_pos_bound (c / 4096) 64 ltac:(lia)).
    assert (c / 64 / 64 = c / 4096) by (rewrite Z.div_div by lia; reflexivity).
    assert (c / 4096 / 64 = c / 262144)
      by (rewrite Z.div_div by lia; reflexivity).
    rewrite !byte_val_of by lia. bits_to_arith.
    destruct (Z.ltb_spec (128 + (c / 4096) mod 64) 144);
      decide_tests; cbn [andb negb orb]; do 2 f_equal; lia.
Qed.

Lemma utf8_scan_encode (s : str) (rest : bytes) :
  forallb is_scalar s = true ->
  utf8_scan (encode s ++ rest) = map Some s ++ utf8_scan rest.
Proof.
  induction s as [|c s IH]; [reflexivity|].
  simpl. rewrite andb_true_iff. intros [Hc Hs].
  rewrite <- app_assoc, utf8_scan_encode_char, IH by assumption.
  reflexivity.
Qed.

(** Encoded text decodes to itself, whatever follows it and whatever the
    error handler. *)
Lemma decode_encode_app (errors : error_handler) (s : str) (rest : bytes) :
  forallb is_scalar s = true ->
  decode errors (encode s ++ rest) = s ++ decode errors rest.
Proof.
  intros H. unfold decode. rewrite utf8_scan_encode by exact H.
  rewrite flat_map_app. f_equal.
  clear H. induction s as [|c s IH]; [reflexivity|].
  simpl. rewrite IH. reflexivity.
Qed.

Lemma decode_encode (errors : error_handler) (s : str) :
  forallb is_scalar s = true -> decode errors (encode s) = s.
Proof.
  intros H. rewrite <- (app_nil_r (encode s)), decode_encode_app by exact H.
  apply app_nil_r.
Qed.

Lemma utf8_scan_invalid_start (b : byte) (rest : bytes) :
  invalid_start b = true -> utf8_scan (b :: rest) = None :: utf8_scan rest.
Proof.
  unfold invalid_start. intros H.
  apply orb_true_iff in H. cbn [utf8_scan].
  destruct H as [H|H].
  - apply andb_true_iff in H. destruct H as [H1 H2].
    apply Z.leb_le in H1. apply Z.ltb_lt in H2. decide_tests. reflexivity.
  - apply Z.leb_le in H. decide_tests. reflexivity.
Qed.

(** ** Dictionaries *)

Lemma truthy_dict_set (k : str) (v : pyval) (d : dict) :
  truthy (dict_set k v d) = true.
Proof.
  destruct d as [|[k' v'] d]; [reflexivity|].
  simpl. destruct (str_eqb k k'); reflexivity.
Qed.

Lemma truthy_snoc {A} (l : list A) (x : A) : truthy (l ++ [x]) = true.
Proof. destruct l; reflexivity. Qed.

Lemma dict_get_set_same (k : str) (v : pyval) (d : dict) :
  dict_get k (dict_set k v d) = Some v.
Proof.
  induction d as [|[k' v'] d IH]; simpl.
  - rewrite str_eqb_refl. reflexivity.
  - destruct (str_eqb k k') eqn:E; simpl; rewrite E; [reflexivity | exact IH].
Qed.

Lemma dict_get_set_other (k k' : str) (v : pyval) (d : dict) :
  str_eqb k k' = false -> dict_get k (dict_set k' v d) = dict_get k d.
Proof.
  intros N. induction d as [|[k0 v0] d IH]; simpl.
  - rewrite N. reflexivity.
  - destruct (str_eqb k' k0) eqn:E; simpl.
    + apply str_eqb_eq in E. subst k0. rewrite N. reflexivity.
    + rewrite IH. reflexivity.
Qed.

Lemma keys_dict_set (k : str) (v : pyval) (d : dict) :
  keys (dict_set k v d) = if existsb (str_eqb k) (keys d) then keys d
                          else keys d ++ [k].
Proof.
  induction d as [|[k' v'] d IH]; [reflexivity|].
  cbn [dict_set keys map fst existsb].
  destruct (str_eqb k k') eqn:E; cbn [orb map fst]; [reflexivity|].
  fold (keys (dict_set k v d)). fold (keys d). rewrite IH.
  destruct (existsb (str_eqb k) (keys d)); reflexivity.
Qed.

Lemma existsb_str_eqb (k : str) (l : list str) :
  existsb (str_eqb k) l = true <-> In k l.
Proof.
  rewrite existsb_exists. split.
  - intros [x [I E]]. apply str_eqb_eq in E. subst. exact I.
  - intros I. exists k. split; [exact I | apply str_eqb_refl].
Qed.

(** [d[k] = v] keeps the keys distinct and adds at most [k]. *)
Lemma dict_set_keys (k : str) (v : pyval) (d : dict) (allowed : list str) :
  In k allowed ->
  NoDup (keys d) /\ incl (keys d) allowed ->
  NoDup (keys (dict_set k v d)) /\ incl (keys (dict_set k v d)) allowed.
Proof.
  intros A [N I]. rewrite keys_dict_set.
  destruct (existsb (str_eqb k) (keys d)) eqn:E; [auto|]. split.
  - apply NoDup_app; [exact N | repeat constructor; intros [] | ].
    intros x Hx [<-|[]].
    apply existsb_str_eqb in Hx. congruence.
  - apply incl_app; [exact I|]. intros x [<-|[]]. exact A.
Qed.

(** ** The lines of a block *)

Lemma parse_line_skips (st : dict * list str) (line : str) :
  comment_or_blank line = true -> parse_line st line = st.
Proof.
  unfold comment_or_blank, parse_line. destruct st as [event data_lines].
  destruct (strip line) as [|c l]; [reflexivity|].
  cbn [truthy negb orb]. intros H.
  apply startswith_prefix in H. destruct H as [r H].
  inversion H; subst. reflexivity.
Qed.

Lemma parse_line_sets (st : dict * list str) (line : str) :
  comment_or_blank line = false -> any_field (parse_line st line) = true.
Proof.
  unfold comment_or_blank, parse_line, any_field.
  destruct st as [event data_lines].
  destruct (truthy (strip line)); [|discriminate].
  cbn [negb orb]. intros ->. cbn [negb].
  repeat match goal with
         | |- context [if ?b then _ else _] => destruct b
         end;
    cbn [fst snd];
    rewrite ?truthy_dict_set, ?truthy_snoc, ?orb_true_r; reflexivity.
Qed.

Lemma parse_line_keeps (st : dict * list str) (line : str) :
  any_field st = true -> any_field (parse_line st line) = true.
Proof.
  unfold parse_line, any_field. destruct st as [event data_lines].
  cbn [fst snd]. intros H.
  repeat match goal with
         | |- context [if ?b then _ else _] => destruct b
         end;
    cbn [fst snd];
    rewrite ?truthy_dict_set, ?truthy_snoc, ?orb_true_r; auto.
Qed.

Lemma parse_lines_keep (lines : list str) (st : dict * list str) :
  any_field st = true -> any_field (fold_left parse_line lines st) = true.
Proof.
  revert st; induction lines as [|l lines IH]; intros st H; [exact H|].
  simpl. apply IH, parse_line_keeps, H.
Qed.

(** The loop over the lines sets a field exactly when some line is
    neither blank nor a comment. *)
Lemma parse_lines_fields (lines : list str) (st : dict * list str) :
  if forallb comment_or_blank lines
  then fold_left parse_line lines st = st
  else any_field (fold_left parse_line lines st) = true.
Proof.
  revert st; induction lines as [|l lines IH]; intros st; [reflexivity|].
  simpl. destruct (comment_or_blank l) eqn:E; simpl.
  - rewrite parse_line_skips by exact E. apply IH.
  - apply parse_lines_keep, parse_line_sets, E.
Qed.

Lemma blank_lines_comment_or_blank (lines : list str) :
  forallb (forallb isspace) lines = true ->
  forallb comment_or_blank lines = true.
Proof.
  induction lines as [|l lines IH]; [reflexivity|].
  simpl. rewrite !andb_true_iff. intros [Hl Hr]. split; [|auto].
  unfold comment_or_blank. rewrite truthy_strip, Hl. reflexivity.
Qed.

(** A line leaves the [data] key of [event] alone and appends its data
    value, if it has one, to [data_lines]. *)
Lemma parse_line_data (st : dict * list str) (line : str) :
  dict_get (lit "data") (fst (parse_line st line))
  = dict_get (lit "data") (fst st)
  /\ snd (parse_line st line)
     = snd st ++ match data_value line with Some v => [v] | None => [] end.
Proof.
  unfold parse_line, data_value. destruct st as [event data_lines].
  cbn [fst snd].
  destruct (truthy (strip line)) eqn:T; cbn [negb orb].
  - destruct (startswith (lit "data:") (strip line)); [auto|].
    destruct (startswith (lit "event:") (strip line)); cbn [fst snd orb].
    { rewrite dict_get_set_other, app_nil_r by reflexivity. auto. }
    destruct (startswith (lit "id:") (strip line)); cbn [fst snd orb].
    { rewrite dict_get_set_other, app_nil_r by reflexivity. auto. }
    destruct (startswith (lit "retry:") (strip line)); cbn [fst snd orb].
    { rewrite dict_get_set_other, app_nil_r by reflexivity. auto. }
    destruct (startswith (lit ":") (strip line)); cbn [fst snd negb];
      rewrite ?app_nil_r; auto.
  - destruct (strip line); [|discriminate].
    cbn. rewrite app_nil_r. auto.
Qed.

Lemma parse_lines_data (lines : list str) (st : dict * list str) :
  dict_get (lit "data") (fst (fold_left parse_line lines st))
  = dict_get (lit "data") (fst st)
  /\ snd (fold_left parse_line lines st) = snd st ++ data_values lines.
Proof.
  revert st; induction lines as [|l lines IH]; intros st; simpl.
  - rewrite app_nil_r. auto.
  - destruct (IH (parse_line st l)) as [G D].
    destruct (parse_line_data st l) as [G1 D1].
    rewrite G, D, G1, D1, <- app_assoc.
    destruct (data_value l); auto.
Qed.

(** A line with a data value is neither blank nor a comment. *)
Lemma data_value_not_blank (line : str) :
  comment_or_blank line = true -> data_value line = None.
Proof.
  unfold comment_or_blank, data_value.
  destruct (strip line) as [|c l]; [reflexivity|].
  cbn [truthy negb orb]. intros H.
  apply startswith_prefix in H. destruct H as [r H].
  inversion H; subst. reflexivity.
Qed.

Lemma data_values_none (lines : list str) :
  forallb comment_or_blank lines = true -> data_values lines = [].
Proof.
  induction lines as [|l lines IH]; [reflexivity|].
  simpl. rewrite andb_true_iff. intros [Hl Hr].
  rewrite (data_value_not_blank _ Hl). auto.
Qed.

Lemma data_values_some (lines : list str) :
  existsb (fun l => startswith (lit "data:") (strip l)) lines = true ->
  data_values lines <> [].
Proof.
  induction lines as [|l lines IH]; [discriminate|].
  cbn [existsb data_values]. intros H.
  destruct (startswith (lit "data:") (strip l)) eqn:D.
  - unfold data_value. rewrite D. discriminate.
  - destruct (data_value l); [discriminate | apply IH, H].
Qed.

Lemma startswith_other_head (p q line : str) (x y : codepoint) :
  x <> y ->
  startswith (x :: p) line = true -> startswith (y :: q) line = false.
Proof.
  intros N H. destruct line as [|c l]; [discriminate|].
  cbn [startswith] in *. apply andb_true_iff in H. destruct H as [H _].
  apply Z.eqb_eq in H. subst c.
  destruct (Z.eqb_spec y x); [congruence | reflexivity].
Qed.

Ltac eval_lits :=
  repeat match goal with
    | |- context [lit ?s] =>
        let v := eval vm_compute in (lit s) in change (lit s) with v
    | H : context [lit ?s] |- _ =>
        let v := eval vm_compute in (lit s) in change (lit s) with v in H
    end.

(** What a line does to one of the keys [event], [id], [retry]. *)
Lemma parse_line_field (key prefix : str) (st : dict * list str) (line : str) :
  (key, prefix) = (lit "event", lit "event:")
  \/ (key, prefix) = (lit "id", lit "id:")
  \/ (key, prefix) = (lit "retry", lit "retry:") ->
  dict_get key (fst (parse_line st line))
  = match field_value prefix line with
    | Some v => Some (PStr v)
    | None => dict_get key (fst st)
    end.
Proof.
  intros K. unfold parse_line, field_value. destruct st as [event data_lines].
  destruct (strip line) as [|c l] eqn:S.
  { cbn [truthy negb fst].
    destruct K as [K|[K|K]]; inversion K; reflexivity. }
  cbn [truthy negb].
  destruct (startswith (lit "data:") (c :: l)) eqn:D;
    [|destruct (startswith (lit "event:") (c :: l)) eqn:E;
      [|destruct (startswith (lit "id:") (c :: l)) eqn:I;
        [|destruct (startswith (lit "retry:") (c :: l)) eqn:R;
          [|destruct (startswith (lit ":") (c :: l)) eqn:C]]]];
    cbn [fst negb];
    destruct K as [K|[K|K]]; inversion K; subst; clear K;
    rewrite ?E, ?I, ?R;
    try rewrite dict_get_set_same;
    try rewrite dict_get_set_other by reflexivity;
    try reflexivity;
    eval_lits;
    match goal with
    | H : startswith (?x :: ?p) ?ln = true
      |- context [startswith (?y :: ?q) ?ln] =>
        rewrite (startswith_other_head p q ln x y ltac:(discriminate) H)
    end;
    reflexivity.
Qed.

Lemma parse_lines_field (key prefix : str) (lines : list str)
    (st : dict * list str) :
  (key, prefix) = (lit "event", lit "event:")
  \/ (key, prefix) = (lit "id", lit "id:")
  \/ (key, prefix) = (lit "retry", lit "retry:") ->
  dict_get key (fst (fold_left parse_line lines st))
  = match last_field prefix lines with
    | Some v => Some (PStr v)
    | None => dict_get key (fst st)
    end.
Proof.
  intros K. revert st; induction lines as [|l lines IH]; intros st;
    [reflexivity|].
  cbn [fold_left last_field]. rewrite IH.
  destruct (last_field prefix lines); [reflexivity|].
  apply parse_line_field, K.
Qed.

Lemma parse_line_keys (st : dict * list str) (line : str) :
  NoDup (keys (fst st)) /\ incl (keys (fst st)) event_keys ->
  NoDup (keys (fst (parse_line st line)))
  /\ incl (keys (fst (parse_line st line))) event_keys.
Proof.
  intros H. unfold parse_line. destruct st as [event data_lines].
  cbn [fst] in H.
  repeat match goal with
         | |- context [if ?b then _ else _] => destruct b
         end;
    cbn [fst]; try exact H;
    apply dict_set_keys; try exact H; cbn; auto.
Qed.

Lemma parse_lines_keys (lines : list str) (st : dict * list str) :
  NoDup (keys (fst st)) /\ incl (keys (fst st)) event_keys ->
  NoDup (keys (fst (fold_left parse_line lines st)))
  /\ incl (keys (fst (fold_left parse_line lines st))) event_keys.
Proof.
  revert st; induction lines as [|l lines IH]; intros st H; [exact H|].
  cbn [fold_left]. apply IH, parse_line_keys, H.
Qed.

(** ** CR LF line endings *)









(** ** Traces *)

Lemma send_event_sends (event_data : option dict) :
  sent (send_event event_data) = send_event event_data.
Proof.
  destruct event_data as [e|]; [|reflexivity].
  simpl. destruct (truthy e); reflexivity.
Qed.

Lemma sent_app (t1 t2 : list action) : sent (t1 ++ t2) = sent t1 ++ sent t2.
Proof. apply filter_app. Qed.

Lemma chunks_read_app (t1 t2 : list action) :
  chunks_read (t1 ++ t2) = chunks_read t1 ++ chunks_read t2.
Proof.
  induction t1 as [|a t1 IH]; [reflexivity|].
  destruct a; simpl; rewrite IH; reflexivity.
Qed.

Lemma checks_app (t1 t2 : list action) :
  checks (t1 ++ t2) = checks t1 ++ checks t2.
Proof.
  induction t1 as [|a t1 IH]; [reflexivity|].
  destruct a; simpl; rewrite IH; reflexivity.
Qed.

Lemma posts_app (t1 t2 : list action) : posts (t1 ++ t2) = posts t1 ++ posts t2.
Proof.
  induction t1 as [|a t1 IH]; [reflexivity|].
  destruct a; cbn [app posts]; rewrite IH; reflexivity.
Qed.

(** ** What a block parses to *)

Lemma not_blank_lines (event_str : str) :
  forallb comment_or_blank (split_char LF event_str) = false ->
  truthy (strip event_str) = true.
Proof.
  intros E. rewrite truthy_strip.
  destruct (forallb isspace event_str) eqn:W; [|reflexivity].
  apply (split_char_blank LF), blank_lines_comment_or_blank in W. congruence.
Qed.

(** The result of [_parse_sse_event], from the lines of the block: no
    Event when every line is blank or a comment; otherwise an Event,
    without data when no line has a data value, with the data decoded or
    raw when some have, unless [json.loads] raises on them another
    exception than [JSONDecodeError], which then leaves the method. *)
Lemma parse_sse_event_cases (event_str : str) :
  if forallb comment_or_blank (split_char LF event_str)
  then _parse_sse_event event_str = Ok None
  else
    match data_values (split_char LF event_str) with
    | [] =>
        exists event,
          _parse_sse_event event_str = Ok (Some event)
          /\ truthy event = true
          /\ dict_get (lit "data") event = None
    | (_ :: _) as values =>
        match loads_or_raw (join (lit "\n") values) with
        | Ok v =>
            exists event,
              _parse_sse_event event_str = Ok (Some event)
              /\ truthy event = true
              /\ dict_get (lit "data") event = Some v
        | Raise e => _parse_sse_event event_str = Raise e
        end
    end.
Proof.
  unfold _parse_sse_event.
  pose proof (parse_lines_fields (split_char LF event_str) ([], [])) as F.
  pose proof (parse_lines_data (split_char LF event_str) ([], [])) as [G D].
  destruct (forallb comment_or_blank (split_char LF event_str)) eqn:E.
  - rewrite F. destruct (truthy (strip event_str)); reflexivity.
  - rewrite (not_blank_lines _ E). cbn [negb].
    destruct (fold_left parse_line (split_char LF event_str) ([], []))
      as [ev data_lines].
    unfold any_field in F. cbn [fst snd app dict_get] in F, G, D.
    subst data_lines.
    destruct (data_values (split_char LF event_str)) as [|x xs];
      cbn [truthy].
    + rewrite orb_false_r in F. rewrite F. eauto.
    + destruct (loads_or_raw (join (lit "\n") (x :: xs))) as [v|e];
        [|reflexivity].
      rewrite truthy_dict_set. eexists. split; [reflexivity|].
      split; [apply truthy_dict_set | apply dict_get_set_same].
Qed.

(** A block of blank lines and comments calls neither [json.loads] nor
    anything else that raises. *)
Lemma parse_sse_event_none (event_str : str) :
  forallb comment_or_blank (split_char LF event_str) = true ->
  _parse_sse_event event_str = Ok None.
Proof.
  intros E. pose proof (parse_sse_event_cases event_str) as C.
  rewrite E in C. exact C.
Qed.

(** What is returned is never the empty dict. *)
Lemma parse_sse_event_truthy (event_str : str) (event : dict) :
  _parse_sse_event event_str = Ok (Some event) -> truthy event = true.
Proof.
  intros H. pose proof (parse_sse_event_cases event_str) as C.
  destruct (forallb comment_or_blank (split_char LF event_str));
    [congruence|].
  destruct (data_values (split_char LF event_str)).
  - destruct C as [ev [P [T _]]]. congruence.
  - destruct (loads_or_raw _); [|congruence].
    destruct C as [ev [P [T _]]]. congruence.
Qed.


(** ** The extraction loop *)

Lemma split_once_shorter (s a b : str) :
  split_once (lit "\n\n") s = Some (a, b) ->
  (List.length b + 2 <= List.length s)%nat.
Proof.
  intros H. apply split_once_parts in H. subst s.
  rewrite !length_app. simpl. lia.
Qed.

(** Rounds beyond the length of the buffer change nothing: the loop has
    stopped by then. *)
Lemma drain_rounds_enough (n m : nat) (buffer : str) :
  (List.length buffer <= n)%nat -> (List.length buffer <= m)%nat ->
  drain_rounds n buffer = drain_rounds m buffer.
Proof.
  revert m buffer; induction n as [|n IH]; intros [|m] buffer Hn Hm;
    try reflexivity.
  - destruct buffer; [reflexivity | simpl in Hn; lia].
  - destruct buffer; [reflexivity | simpl in Hm; lia].
  - cbn [drain_rounds].
    destruct (split_once _ buffer) as [[e b]|] eqn:E; [|reflexivity].
    apply split_once_shorter in E.
    rewrite (IH m b) by lia. reflexivity.
Qed.

(** One round of the loop. *)
Lemma drain_buffer_eq (buffer : str) :
  drain_buffer buffer =
  match split_once (lit "\n\n") buffer with
  | None => ([], Ok buffer)
  | Some (event_str, rest) =>
      match _parse_sse_event event_str with
      | Raise e => ([], Raise e)
      | Ok event_data =>
          let '(frames, kept) := drain_buffer rest in
          (send_event event_data ++ frames, kept)
      end
  end.
Proof.
  unfold drain_buffer.
  destruct (split_once _ buffer) as [[e b]|] eqn:E.
  - pose proof (split_once_shorter _ _ _ E) as L.
    destruct (List.length buffer) as [|n] eqn:Len; [lia|].
    cbn [drain_rounds]. rewrite E.
    rewrite (drain_rounds_enough n (List.length b) b) by lia. reflexivity.
  - destruct (List.length buffer); cbn [drain_rounds]; [|rewrite E]; reflexivity.
Qed.

Ltac by_length buffer IH :=
  let n := fresh "n" in
  let Len := fresh "Len" in
  remember (List.length buffer) as n eqn:Len;
  revert buffer Len; induction n as [n IH] using lt_wf_ind;
  intros buffer Len.

(** The loop runs until the buffer holds no delimiter. *)
Lemma drain_buffer_drained (buffer kept : str) :
  snd (drain_buffer buffer) = Ok kept ->
  split_once (lit "\n\n") kept = None.
Proof.
  revert kept. by_length buffer IH. intros kept.
  rewrite drain_buffer_eq.
  destruct (split_once _ buffer) as [[e b]|] eqn:E.
  - pose proof (split_once_shorter _ _ _ E) as L.
    destruct (_parse_sse_event e); [|discriminate].
    specialize (IH (List.length b) ltac:(lia) b eq_refl kept).
    destruct (drain_buffer b) as [s l]. exact IH.
  - cbn [snd]. intros H. inversion H; subst. exact E.
Qed.

Lemma drain_buffer_idle (buffer : str) :
  split_once (lit "\n\n") buffer = None ->
  drain_buffer buffer = ([], Ok buffer).
Proof. intros H. rewrite drain_buffer_eq, H. reflexivity. Qed.

(** Text that arrives later does not change what the loop has extracted:
    draining [buffer ++ more] is draining [buffer], then draining what was
    left with [more] appended, unless the first raised. *)
Lemma drain_buffer_app (buffer more : str) :
  drain_buffer (buffer ++ more) =
  match drain_buffer buffer with
  | (sent1, Raise e) => (sent1, Raise e)
  | (sent1, Ok kept1) =>
      let '(sent2, kept2) := drain_buffer (kept1 ++ more) in
      (sent1 ++ sent2, kept2)
  end.
Proof.
  by_length buffer IH.
  rewrite (drain_buffer_eq buffer).
  destruct (split_once _ buffer) as [[e b]|] eqn:E.
  - pose proof (split_once_shorter _ _ _ E) as L.
    rewrite (drain_buffer_eq (buffer ++ more)), (split_once_app _ _ more _ _ E).
    destruct (_parse_sse_event e) as [ev|x]; [|reflexivity].
    rewrite (IH (List.length b) ltac:(lia) b eq_refl).
    destruct (drain_buffer b) as [s1 [l1|x]]; [|reflexivity].
    destruct (drain_buffer (l1 ++ more)) as [s2 l2].
    rewrite app_assoc. reflexivity.
  - destruct (drain_buffer (buffer ++ more)) as [s2 l2]. reflexivity.
Qed.

Lemma drain_buffer_sends (buffer : str) :
  sent (fst (drain_buffer buffer)) = fst (drain_buffer buffer).
Proof.
  by_length buffer IH.
  rewrite drain_buffer_eq.
  destruct (split_once _ buffer) as [[e b]|] eqn:E; [|reflexivity].
  pose proof (split_once_shorter _ _ _ E) as L.
  destruct (_parse_sse_event e) as [ev|x]; [|reflexivity].
  specialize (IH (List.length b) ltac:(lia) b eq_refl).
  destruct (drain_buffer b) as [s l]. simpl in *.
  rewrite sent_app, send_event_sends, IH. reflexivity.
Qed.

Lemma drain_buffer_reads_nothing (buffer : str) :
  chunks_read (fst (drain_buffer buffer)) = []
  /\ checks (fst (drain_buffer buffer)) = [].
Proof.
  by_length buffer IH.
  rewrite drain_buffer_eq.
  destruct (split_once _ buffer) as [[e b]|] eqn:E; [|auto].
  pose proof (split_once_shorter _ _ _ E) as L.
  destruct (_parse_sse_event e) as [ev|x]; [|auto].
  specialize (IH (List.length b) ltac:(lia) b eq_refl).
  destruct (drain_buffer b) as [s l]. cbn [fst] in *.
  unfold send_event. destruct ev as [ev|]; [|exact IH].
  destruct (truthy ev); exact IH.
Qed.


(** ** The stream loop on an open connection *)

(** With the connection open throughout and the body read to its end,
    the loop sends what one pass over the whole decoded text extracts, and
    ends as that pass does. *)
Lemma stream_loop_open (chunks : list bytes) (buffer : str) :
  split_once (lit "\n\n") buffer = None ->
  let '(trace, kept) := stream_loop buffer (map open_chunk chunks) None in
  (sent trace, kept) =
  drain_buffer (buffer ++ flat_map (decode ignore) chunks).
Proof.
  revert buffer; induction chunks as [|c chunks IH]; intros buffer Hb.
  - simpl. rewrite app_nil_r, drain_buffer_idle by exact Hb. reflexivity.
  - cbn [map stream_loop open_chunk ws_closed chunk flat_map].
    rewrite app_assoc,
      (drain_buffer_app (buffer ++ decode ignore c)
                        (flat_map (decode ignore) chunks)).
    pose proof (drain_buffer_drained (buffer ++ decode ignore c)) as Hd.
    pose proof (drain_buffer_sends (buffer ++ decode ignore c)) as Hs.
    destruct (drain_buffer (buffer ++ decode ignore c)) as [s1 [l1|x]].
    + cbn [fst snd] in Hd, Hs. specialize (IH l1 (Hd l1 eq_refl)).
      destruct (stream_loop l1 (map open_chunk chunks) None) as [later l2].
      rewrite <- IH. cbn [sent filter is_send].
      fold (sent (s1 ++ later)). rewrite sent_app, Hs. reflexivity.
    + cbn [fst] in Hs. cbn [sent filter is_send]. fold (sent s1).
      rewrite Hs. reflexivity.
Qed.

(** The statements after the loop do what the remainder parses to: a
    blank remainder parses to nothing. *)
Lemma flush_buffer_parses (buffer : str) :
  flush_buffer buffer =
  match _parse_sse_event buffer with
  | Ok event_data => (send_event event_data, None)
  | Raise e => ([], Some e)
  end.
Proof.
  unfold flush_buffer.
  destruct (truthy (strip buffer)) eqn:E; [reflexivity|].
  unfold _parse_sse_event. rewrite E. reflexivity.
Qed.

Lemma split_rounds_enough (n m : nat) (s : str) :
  (List.length s <= n)%nat -> (List.length s <= m)%nat ->
  split_rounds n (lit "\n\n") s = split_rounds m (lit "\n\n") s.
Proof.
  revert m s; induction n as [|n IH]; intros [|m] s Hn Hm; try reflexivity.
  - destruct s; [reflexivity | simpl in Hn; lia].
  - destruct s; [reflexivity | simpl in Hm; lia].
  - cbn [split_rounds].
    destruct (split_once _ s) as [[a b]|] eqn:E; [|reflexivity].
    apply split_once_shorter in E. rewrite (IH m b) by lia. reflexivity.
Qed.

Lemma split_eq (s : str) :
  split (lit "\n\n") s =
  match split_once (lit "\n\n") s with
  | None => [s]
  | Some (a, b) => a :: split (lit "\n\n") b
  end.
Proof.
  unfold split.
  destruct (split_once _ s) as [[a b]|] eqn:E.
  - pose proof (split_once_shorter _ _ _ E) as L.
    destruct (List.length s) as [|n] eqn:Len; [lia|].
    cbn [split_rounds]. rewrite E.
    rewrite (split_rounds_enough n (List.length b) b) by lia. reflexivity.
  - destruct (List.length s); cbn [split_rounds]; [|rewrite E]; reflexivity.
Qed.

(** The loop followed by the statements after it, on a text: the frames
    of its blocks. *)
Lemma drain_then_flush (s : str) :
  match drain_buffer s with
  | (frames, Raise e) => (frames, Some e)
  | (frames, Ok kept) =>
      let '(last, raised) := flush_buffer kept in (frames ++ last, raised)
  end = blocks_frames (split (lit "\n\n") s).
Proof.
  by_length s IH.
  rewrite drain_buffer_eq, split_eq.
  destruct (split_once _ s) as [[a b]|] eqn:E.
  - pose proof (split_once_shorter _ _ _ E) as L.
    specialize (IH (List.length b) ltac:(lia) b eq_refl).
    cbn [blocks_frames].
    destruct (_parse_sse_event a) as [ev|x]; [|reflexivity].
    rewrite <- IH.
    destruct (drain_buffer b) as [frames [kept|x]]; [|reflexivity].
    destruct (flush_buffer kept) as [last raised].
    rewrite app_assoc. reflexivity.
  - cbn [blocks_frames]. rewrite flush_buffer_parses.
    destruct (_parse_sse_event s) as [ev|x]; [|reflexivity].
    cbn. rewrite app_nil_r. reflexivity.
Qed.

Lemma sent_idem (trace : list action) : sent (sent trace) = sent trace.
Proof.
  induction trace as [|a t IH]; [reflexivity|].
  unfold sent in *. cbn [filter]. destruct (is_send a) eqn:E; [|exact IH].
  cbn [filter]. rewrite E, IH. reflexivity.
Qed.

(** The handler on an open connection, the body read to its end: what it
    sends and how it ends, from the blocks of the decoded text. *)
Lemma handle_sse_stream_open (chunks : list bytes) :
  (sent (fst (_handle_sse_stream (event_stream chunks))),
   snd (_handle_sse_stream (event_stream chunks)))
  = (sent (fst (blocks_frames
                  (split (lit "\n\n") (flat_map (decode ignore) chunks)))),
     snd (blocks_frames
            (split (lit "\n\n") (flat_map (decode ignore) chunks)))).
Proof.
  unfold _handle_sse_stream, event_stream. cbn [content content_error].
  pose proof (stream_loop_open chunks [] eq_refl) as A.
  rewrite <- drain_then_flush.
  destruct (stream_loop [] (map open_chunk chunks) None) as [trace kept].
  cbn [app] in A. rewrite <- A.
  destruct kept as [kept|x].
  - destruct (flush_buffer kept) as [last raised]. cbn [fst snd].
    rewrite !sent_app, sent_idem. reflexivity.
  - cbn [fst snd]. rewrite sent_idem. reflexivity.
Qed.

(** ** UTF-8: what the decoder keeps and what it drops *)

Lemma byte_of_val (b : byte) : byte_of (byte_val b) = b.
Proof.
  unfold byte_of, byte_val. rewrite N2Z.id, Byte.of_to_N. reflexivity.
Qed.

Lemma continuation_range (b : byte) :
  is_continuation b = true -> 128 <= byte_val b < 192.
Proof.
  unfold is_continuation. intros H. apply andb_true_iff in H.
  destruct H as [H1 H2]. apply Z.leb_le in H1. apply Z.ltb_lt in H2. lia.
Qed.

Ltac byte_is b :=
  match goal with
  | |- context [byte_of ?e] =>
      replace e with (byte_val b)
        by (bits_to_arith; Z.div_mod_to_equations; lia);
      rewrite (byte_of_val b)
  end.

(** The sequences the decoder accepts are the encodings of what it
    decodes them to. *)
Lemma encode_decoded_2 (b1 b2 : byte) :
  194 <= byte_val b1 < 224 ->
  is_continuation b2 = true ->
  let c := Z.shiftl (byte_val b1) 6 + byte_val b2 - 12416 in
  is_scalar c = true /\ encode_char c = [b1; b2].
Proof.
  intros H1 H2. apply continuation_range in H2. cbn zeta.
  rewrite shiftl_mul by lia. change (2 ^ 6) with 64.
  set (c := byte_val b1 * 64 + byte_val b2 - 12416).
  assert (C : 128 <= c < 2048) by (unfold c; lia).
  split.
  - unfold is_scalar. decide_tests. reflexivity.
  - unfold encode_char. decide_tests.
    byte_is b1. byte_is b2. reflexivity.
Qed.

Lemma encode_decoded_3 (b1 b2 b3 : byte) :
  224 <= byte_val b1 < 240 ->
  is_continuation b2 = true ->
  (if byte_val b2 <? 160 then byte_val b1 =? 224 else byte_val b1 =? 237)
  = false ->
  is_continuation b3 = true ->
  let c := Z.shiftl (byte_val b1) 12 + Z.shiftl (byte_val b2) 6
           + byte_val b3 - 925824 in
  is_scalar c = true /\ encode_char c = [b1; b2; b3].
Proof.
  intros H1 H2 X H3. apply continuation_range in H2, H3. cbn zeta.
  rewrite !shiftl_mul by lia. change (2 ^ 6) with 64.
  change (2 ^ 12) with 4096.
  set (c := byte_val b1 * 4096 + byte_val b2 * 64 + byte_val b3 - 925824).
  assert (C : 2048 <= c < 65536 /\ ~ (55296 <= c < 57344)).
  { unfold c.
    destruct (Z.ltb_spec (byte_val b2) 160);
      [apply Z.eqb_neq in X | apply Z.eqb_neq in X]; lia. }
  split.
  - unfold is_scalar.
    destruct (Z.leb_spec 55296 c); destruct (Z.ltb_spec c 57344);
      decide_tests; try reflexivity; lia.
  - unfold encode_char. decide_tests.
    byte_is b1. byte_is b2. byte_is b3. reflexivity.
Qed.

Lemma encode_decoded_4 (b1 b2 b3 b4 : byte) :
  240 <= byte_val b1 < 245 ->
  is_continuation b2 = true ->
  (if byte_val b2 <? 144 then byte_val b1 =? 240 else byte_val b1 =? 244)
  = false ->
  is_continuation b3 = true ->
  is_continuation b4 = true ->
  let c := Z.shiftl (byte_val b1) 18 + Z.shiftl (byte_val b2) 12
           + Z.shiftl (byte_val b3) 6 + byte_val b4 - 63447168 in
  is_scalar c = true /\ encode_char c = [b1; b2; b3; b4].
Proof.
  intros H1 H2 X H3 H4. apply continuation_range in H2, H3, H4. cbn zeta.
  rewrite !shiftl_mul by lia. change (2 ^ 6) with 64.
  change (2 ^ 12) with 4096. change (2 ^ 18) with 262144.
  set (c := byte_val b1 * 262144 + byte_val b2 * 4096 + byte_val b3 * 64
            + byte_val b4 - 63447168).
  assert (C : 65536 <= c < 1114112).
  { unfold c.
    destruct (Z.ltb_spec (byte_val b2) 144);
      [apply Z.eqb_neq in X | apply Z.eqb_neq in X]; lia. }
  split.
  - unfold is_scalar. decide_tests. reflexivity.
  - unfold encode_char. decide_tests.
    byte_is b1. byte_is b2. byte_is b3. byte_is b4. reflexivity.
Qed.

Lemma decode_cons_none (errors : error_handler) (rest : list (option codepoint)) :
  flat_map (fun o => match o with Some c => [c] | None => on_error errors end)
           (None :: rest)
  = on_error errors
    ++ flat_map (fun o => match o with
                          | Some c => [c]
                          | None => on_error errors
                          end) rest.
Proof. reflexivity. Qed.

(** A continuation byte where a sequence should start is dropped. *)
Lemma decode_ignore_continuation (b : byte) (rest : bytes) :
  is_continuation b = true ->
  decode ignore (b :: rest) = decode ignore rest.
Proof.
  intros H. apply continuation_range in H.
  unfold decode. rewrite utf8_scan_invalid_start; [reflexivity|].
  unfold invalid_start. apply orb_true_iff. left.
  apply andb_true_iff. split; [apply Z.leb_le | apply Z.ltb_lt]; lia.
Qed.

(** A byte that begins the encoding of no character is dropped, and the
    decoder goes on with the next byte. *)
Lemma decode_ignore_drops (b : byte) (rest : bytes) :
  (forall c rest', is_scalar c = true -> b :: rest <> encode_char c ++ rest') ->
  decode ignore (b :: rest) = decode ignore rest.
Proof.
  intros H. pose proof (byte_val_range b) as R.
  unfold decode at 1. cbn [utf8_scan].
  destruct (Z.ltb_spec (byte_val b) 128) as [L1|L1].
  { exfalso. apply (H (byte_val b) rest).
    - unfold is_scalar. decide_tests. reflexivity.
    - unfold encode_char. decide_tests. rewrite byte_of_val. reflexivity. }
  destruct (Z.ltb_spec (byte_val b) 194) as [L2|L2]; [reflexivity|].
  destruct (Z.ltb_spec (byte_val b) 224) as [L3|L3].
  { destruct rest as [|b2 r2]; [reflexivity|].
    destruct (is_continuation b2) eqn:C2; [|reflexivity].
    exfalso.
    destruct (encode_decoded_2 b b2 ltac:(lia) C2) as [S E].
    apply (H _ r2 S). rewrite E. reflexivity. }
  destruct (Z.ltb_spec (byte_val b) 240) as [L4|L4].
  { destruct rest as [|b2 r2]; [reflexivity|].
    destruct (is_continuation b2) eqn:C2; cbn [negb orb]; [|reflexivity].
    destruct (if byte_val b2 <? 160 then byte_val b =? 224
              else byte_val b =? 237) eqn:X; [reflexivity|].
    destruct r2 as [|b3 r3].
    { cbn. symmetry. apply (decode_ignore_continuation b2 []), C2. }
    destruct (is_continuation b3) eqn:C3.
    - exfalso.
      destruct (encode_decoded_3 b b2 b3 ltac:(lia) C2 X C3) as [S E].
      apply (H _ r3 S). rewrite E. reflexivity.
    - rewrite decode_cons_none. cbn [on_error app].
      symmetry. apply (decode_ignore_continuation b2 (b3 :: r3)), C2. }
  destruct (Z.ltb_spec (byte_val b) 245) as [L5|L5]; [|reflexivity].
  destruct rest as [|b2 r2]; [reflexivity|].
  destruct (is_continuation b2) eqn:C2; cbn [negb orb]; [|reflexivity].
  destruct (if byte_val b2 <? 144 then byte_val b =? 240
            else byte_val b =? 244) eqn:X; [reflexivity|].
  destruct r2 as [|b3 r3].
  { cbn. symmetry. apply (decode_ignore_continuation b2 []), C2. }
  destruct (is_continuation b3) eqn:C3; cbn [negb].
  - destruct r3 as [|b4 r4].
    { rewrite (decode_ignore_continuation b2 [b3] C2).
      rewrite (decode_ignore_continuation b3 [] C3). reflexivity. }
    destruct (is_continuation b4) eqn:C4.
    + exfalso.
      destruct (encode_decoded_4 b b2 b3 b4 ltac:(lia) C2 X C3 C4) as [S E].
      apply (H _ r4 S). rewrite E. reflexivity.
    + rewrite decode_cons_none. cbn [on_error app]. symmetry.
      rewrite (decode_ignore_continuation b2 (b3 :: b4 :: r4) C2).
      apply (decode_ignore_continuation b3 (b4 :: r4)), C3.
  - rewrite decode_cons_none. cbn [on_error app]. symmetry.
    apply (decode_ignore_continuation b2 (b3 :: r3)), C2.
Qed.

(** The encoding of a character is decoded to it. *)
Lemma decode_ignore_keeps (c : codepoint) (rest : bytes) :
  is_scalar c = true ->
  decode ignore (encode_char c ++ rest) = c :: decode ignore rest.
Proof.
  intros H. unfold decode. rewrite utf8_scan_encode_char by exact H.
  reflexivity.
Qed.

(** * The claims *)

(** ** The request body *)


(** C10: a message that decodes to a value that is neither a dict nor a
    str (a list, a number, a boolean, null) is posted with neither the
    json= nor the data= argument, so with an empty body. *)
Theorem other_payload_posts_empty_body
    (self : SSEToWebSocketProxy) (data : str) (v : pyval)
    (outcome : upstream) :
  json_loads data = Ok v ->
  isinstance_dict v = false ->
  isinstance_str v = false ->
  exists r rest,
    _forward_to_sse self data outcome = Post r :: rest
    /\ post_json r = None
    /\ post_data r = None.
Proof.
  intros L D S. unfold _forward_to_sse, forward_payload, loads_or_raw.
  rewrite L. eexists. eexists. split; [reflexivity|].
  cbn [post_request post_json post_data]. rewrite D, S. auto.
Qed.

(** ** A response that is not a success *)

(** C3: for a response whose status is not 200, the call posts the
    request, reads the body as text and sends one frame, the ErrorFrame with
    the status and the body; it reads no chunk of the body and sends nothing
    else.  (There is a response only when the request was posted: on a
    message on which [json.loads] raises another exception than
    [JSONDecodeError] nothing is posted.) *)
Theorem non_200_sends_one_error_frame
    (self : SSEToWebSocketProxy) (data : str) (response : ClientResponse) :
  status response <> 200 ->
  let trace := _forward_to_sse self data (Responded response) in
  match loads_or_raw data with
  | Ok payload =>
      trace = [Post (post_request self payload); ReadText;
               SendJson (PDict [(lit "error", PBool true);
                                (lit "status", PInt (status response));
                                (lit "message", PStr (text response))])]
      /\ sent trace = [SendJson (error_frame (Some (status response))
                                             (text response))]
      /\ chunks_read trace = []
  | Raise e => trace = [SendJson (error_frame None (exn_str e))]
  end.
Proof.
  intros H. cbn zeta. unfold _forward_to_sse, forward_payload.
  destruct (loads_or_raw data) as [payload|e]; [|reflexivity].
  apply Z.eqb_neq in H. rewrite H. cbn. auto.
Qed.

(** ** A connection that closes during a stream *)

(** While the connection is open the loop reads every chunk and looks at
    [ws.closed] once for each, as long as no block raises. *)
Lemma stream_loop_open_reads (content : list arrival) (buffer : str) :
  all_open content = true ->
  match stream_loop buffer content None with
  | (trace, Ok _) =>
      chunks_read trace = map chunk content
      /\ checks trace = map ws_closed content
  | (_, Raise _) => True
  end.
Proof.
  revert buffer; induction content as [|a content IH]; intros buffer H;
    [cbn; auto|].
  simpl in H. apply andb_true_iff in H. destruct H as [Ha Hr].
  apply negb_true_iff in Ha. cbn [stream_loop map]. rewrite Ha.
  pose proof (drain_buffer_reads_nothing (buffer ++ decode ignore (chunk a)))
    as [R C].
  destruct (drain_buffer (buffer ++ decode ignore (chunk a))) as [s [l|x]];
    [|exact I].
  cbn [fst] in R, C. specialize (IH l Hr).
  destruct (stream_loop l content None) as [later [f|x]]; [|exact I].
  destruct IH as [R' C']. cbn [chunks_read checks].
  rewrite chunks_read_app, checks_app, R, C, R', C'. auto.
Qed.

Lemma stream_loop_app_closed (before after : list arrival) (a : arrival)
    (buffer : str) (ending : option exn) :
  all_open before = true ->
  ws_closed a = true ->
  stream_loop buffer (before ++ a :: after) ending
  = match stream_loop buffer before None with
    | (reached, Ok kept) =>
        (reached ++ [ReadChunk (chunk a); CheckClosed true], Ok kept)
    | (reached, Raise e) => (reached, Raise e)
    end.
Proof.
  revert buffer; induction before as [|b before IH]; intros buffer H Ha.
  - cbn. rewrite Ha. reflexivity.
  - simpl in H. apply andb_true_iff in H. destruct H as [Hb Hr].
    apply negb_true_iff in Hb. cbn [app stream_loop]. rewrite Hb.
    destruct (drain_buffer (buffer ++ decode ignore (chunk b)))
      as [s [l|x]]; [|reflexivity].
    rewrite (IH l Hr Ha).
    destruct (stream_loop l before None) as [later [f|x]]; [|reflexivity].
    cbn [app]. rewrite app_assoc. reflexivity.
Qed.

(** C4 (amended): the loop reads [ws.closed] once for each chunk it
    receives, before decoding it, and not before each send.  When it reads
    it as true the loop stops there: the chunk just received and the chunks
    after it are not decoded, nothing is extracted from them, and the trace
    and the buffer of the loop are those of the chunks received before, with
    the last read and the last check added.  (When a block of the chunks
    before raises, the loop has ended there and the closed chunk is not
    reached.) *)
Theorem stream_loop_stops_at_closed_chunk
    (before after : list arrival) (a : arrival) (buffer : str)
    (ending : option exn) :
  all_open before = true ->
  ws_closed a = true ->
  match stream_loop buffer before None with
  | (reached, Ok kept_before) =>
      let '(trace, kept) :=
        stream_loop buffer (before ++ a :: after) ending in
      trace = reached ++ [ReadChunk (chunk a); CheckClosed true]
      /\ kept = Ok kept_before
      /\ sent trace = sent reached
      /\ chunks_read trace = map chunk (before ++ [a])
      /\ checks trace = map ws_closed (before ++ [a])
  | (reached, Raise e) =>
      stream_loop buffer (before ++ a :: after) ending = (reached, Raise e)
  end.
Proof.
  intros H Ha. rewrite (stream_loop_app_closed _ _ _ _ _ H Ha).
  pose proof (stream_loop_open_reads before buffer H) as R.
  destruct (stream_loop buffer before None) as [reached [kept|x]];
    [|reflexivity].
  destruct R as [R C]. repeat split.
  - rewrite sent_app. cbn. apply app_nil_r.
  - rewrite chunks_read_app, R, map_app. reflexivity.
  - rewrite checks_app, C, map_app. cbn. rewrite Ha. reflexivity.
Qed.

(** ** The Event of a block *)

(** C6: a block in which no field was set yields no Event, and a block
    whose lines are all blank or comments sets no field: nothing is sent for
    it. *)
Theorem no_field_no_event (event_str : str) :
  let st := fold_left parse_line (split_char LF event_str) ([], []) in
  (any_field st = false ->
   _parse_sse_event event_str = Ok None
   /\ flush_buffer event_str = ([], None))
  /\ (forallb comment_or_blank (split_char LF event_str) = true ->
      st = ([], [])
      /\ _parse_sse_event event_str = Ok None
      /\ flush_buffer event_str = ([], None)).
Proof.
  cbn zeta.
  pose proof (parse_lines_fields (split_char LF event_str) ([], [])) as F.
  pose proof (parse_sse_event_cases event_str) as S.
  rewrite flush_buffer_parses.
  destruct (forallb comment_or_blank (split_char LF event_str)).
  - rewrite S, F. auto.
  - rewrite F. split; discriminate.
Qed.

(** ** The end of the stream *)


(** ** Decoding a chunk *)

(** A byte that cannot start a sequence begins the encoding of no
    character. *)
Lemma invalid_start_begins_nothing (b : byte) (rest : bytes) :
  invalid_start b = true ->
  forall c rest', is_scalar c = true -> b :: rest <> encode_char c ++ rest'.
Proof.
  intros I c rest' S E.
  pose proof (utf8_scan_invalid_start b rest I) as N.
  rewrite E, utf8_scan_encode_char in N by exact S. discriminate N.
Qed.

(** C8 (amended): a chunk received while the connection is open is
    decoded as UTF-8 with invalid sequences dropped, not replaced, and never
    fails; the decoded text is appended to the buffer, from which the loop
    then extracts the complete blocks.  Dropped means: the encoding of a
    character is decoded to that character, and a byte at which the
    encoding of no character begins is skipped and leaves nothing, so that
    the decoded text is exactly the characters encoded in the chunk. *)
Theorem chunk_decoded_ignoring_errors
    (buffer : str) (a : arrival) (content : list arrival)
    (ending : option exn) :
  ws_closed a = false ->
  stream_loop buffer (a :: content) ending
  = match drain_buffer (buffer ++ decode ignore (chunk a)) with
    | (frames, Raise e) =>
        (ReadChunk (chunk a) :: CheckClosed false :: frames, Raise e)
    | (frames, Ok kept) =>
        let '(later, final) := stream_loop kept content ending in
        (ReadChunk (chunk a) :: CheckClosed false :: frames ++ later, final)
    end
  /\ decode ignore [] = []
  /\ (forall c rest,
         is_scalar c = true ->
         decode ignore (encode_char c ++ rest) = c :: decode ignore rest)
  /\ (forall b rest,
         (forall c rest', is_scalar c = true ->
                          b :: rest <> encode_char c ++ rest') ->
         decode ignore (b :: rest) = decode ignore rest).
Proof.
  intros Ha. split; [|split; [|split]].
  - cbn [stream_loop]. rewrite Ha. reflexivity.
  - reflexivity.
  - apply decode_ignore_keeps.
  - apply decode_ignore_drops.
Qed.

(** ** Line endings *)


(** * Further properties *)

(** ** The stream as a whole *)

Lemma blocks_frames_sends (blocks : list str) :
  sent (fst (blocks_frames blocks)) = fst (blocks_frames blocks).
Proof.
  induction blocks as [|b blocks IH]; [reflexivity|].
  cbn [blocks_frames]. destruct (_parse_sse_event b) as [ev|x]; [|reflexivity].
  destruct (blocks_frames blocks) as [frames r]. cbn [fst] in *.
  rewrite sent_app, send_event_sends, IH. reflexivity.
Qed.

(** X1: while the connection stays open and the body is read to its end,
    the frames sent for a stream are those of the blocks of the decoded
    text, in order, up to the first block on which [_parse_sse_event]
    raises, whose exception then leaves the handler: the text is the chunks
    decoded one by one and put together, the blocks are its pieces between
    blank-line delimiters, the last one included. *)
Theorem stream_sends_frames_of_blocks (chunks : list bytes) :
  (sent (fst (_handle_sse_stream (event_stream chunks))),
   snd (_handle_sse_stream (event_stream chunks)))
  = blocks_frames (split (lit "\n\n") (flat_map (decode ignore) chunks)).
Proof.
  rewrite handle_sse_stream_open, blocks_frames_sends.
  destruct (blocks_frames _). reflexivity.
Qed.


(** X3: chunks cut between characters: each chunk is the encoding of a
    piece of the text.  The frames sent are those of the whole body in one
    chunk, and the handler ends the same way. *)
Theorem chunking_invariant_between_characters (pieces : list str) :
  forallb (forallb is_scalar) pieces = true ->
  sent (fst (_handle_sse_stream (event_stream (map encode pieces))))
  = sent (fst (_handle_sse_stream
                 (event_stream [concat (map encode pieces)])))
  /\ snd (_handle_sse_stream (event_stream (map encode pieces)))
     = snd (_handle_sse_stream (event_stream [concat (map encode pieces)])).
Proof.
  intros H.
  assert (T : flat_map (decode ignore) (map encode pieces)
              = flat_map (decode ignore) [concat (map encode pieces)]).
  { cbn [flat_map]. rewrite app_nil_r.
    induction pieces as [|p pieces IH]; [reflexivity|].
    simpl in H. apply andb_true_iff in H. destruct H as [Hp Hr].
    cbn [map flat_map concat]. rewrite decode_encode_app by exact Hp.
    rewrite decode_encode by exact Hp. f_equal. apply IH, Hr. }
  pose proof (stream_sends_frames_of_blocks (map encode pieces)) as A.
  pose proof (stream_sends_frames_of_blocks [concat (map encode pieces)]) as B.
  rewrite <- T, <- A in B. inversion B. auto.
Qed.

(** X4: a connection found closed when a chunk arrives ends the stream as
    if the body had ended before that chunk: the frames sent are those of
    the chunks before it, followed by what the buffer left by them parses
    to, the handler ends the same way, and no chunk after it is read. *)
Theorem closed_chunk_ends_stream
    (before after : list arrival) (a : arrival) (response : ClientResponse) :
  all_open before = true ->
  ws_closed a = true ->
  content response = before ++ a :: after ->
  let ended :=
    {| status := status response;
       content_type_header := content_type_header response;
       text := text response;
       content := before;
       content_error := None |} in
  sent (fst (_handle_sse_stream response))
  = sent (fst (_handle_sse_stream ended))
  /\ snd (_handle_sse_stream response) = snd (_handle_sse_stream ended)
  /\ match stream_loop [] before None with
     | (_, Ok _) =>
         chunks_read (fst (_handle_sse_stream response))
         = map chunk (before ++ [a])
     | (_, Raise _) =>
         fst (_handle_sse_stream response) = fst (_handle_sse_stream ended)
     end.
Proof.
  intros H Ha Hc. cbn zeta. unfold _handle_sse_stream.
  cbn [content content_error].
  rewrite Hc, (stream_loop_app_closed _ _ _ _ _ H Ha).
  pose proof (stream_loop_open_reads before [] H) as R.
  destruct (stream_loop [] before None) as [trace [kept|x]];
    [|cbn [fst snd]; auto].
  destruct R as [R _]. rewrite flush_buffer_parses.
  destruct (_parse_sse_event kept) as [ev|x]; cbn [fst snd].
  - repeat split.
    + rewrite !sent_app. cbn. rewrite app_nil_r. reflexivity.
    + rewrite !chunks_read_app, R, map_app. cbn [chunks_read map].
      unfold send_event. destruct ev as [ev|]; [destruct (truthy ev)|];
        cbn; rewrite ?app_nil_r; reflexivity.
  - repeat split.
    + rewrite !sent_app. cbn. rewrite app_nil_r. reflexivity.
    + rewrite !chunks_read_app, R, map_app. cbn. rewrite app_nil_r.
      reflexivity.
Qed.

(** ** The fields of an Event *)

Lemma parse_sse_event_field (key prefix event_str : str)
    (event_data : option dict) :
  (key, prefix) = (lit "event", lit "event:")
  \/ (key, prefix) = (lit "id", lit "id:")
  \/ (key, prefix) = (lit "retry", lit "retry:") ->
  _parse_sse_event event_str = Ok event_data ->
  event_attr key event_data
  = match last_field prefix (split_char LF event_str) with
    | Some v => Some (PStr v)
    | None => None
    end.
Proof.
  intros K.
  pose proof (parse_lines_field key prefix (split_char LF event_str) ([], []) K)
    as G.
  assert (N : str_eqb key (lit "data") = false)
    by (destruct K as [K|[K|K]]; inversion K; reflexivity).
  pose proof (parse_lines_fields (split_char LF event_str) ([], [])) as F.
  cbn [fst dict_get] in G. rewrite <- G. clear G.
  unfold _parse_sse_event.
  destruct (truthy (strip event_str)) eqn:B; cbn [negb].
  - destruct (fold_left parse_line (split_char LF event_str) ([], []))
      as [ev data_lines]. cbn [fst].
    destruct (truthy data_lines).
    + destruct (loads_or_raw _) as [v|x]; [|discriminate].
      rewrite truthy_dict_set. intros H. inversion H; subst.
      cbn [event_attr]. apply dict_get_set_other, N.
    + intros H. inversion H; subst. destruct ev; reflexivity.
  - rewrite truthy_strip in B. apply negb_false_iff in B.
    apply (split_char_blank LF), blank_lines_comment_or_blank in B.
    rewrite B in F. rewrite F. intros H. inversion H; subst. reflexivity.
Qed.

(** X5: in the Event of a block, each of the attributes [event], [id] and
    [retry] is the text, stripped and kept as a string, after the prefix of
    the last line of the block that has that prefix; without such a line
    the attribute is absent. *)
Theorem last_field_line_wins (event_str : str) (event_data : option dict) :
  _parse_sse_event event_str = Ok event_data ->
  let lines := split_char LF event_str in
  event_attr (lit "event") event_data
  = option_map PStr (last_field (lit "event:") lines)
  /\ event_attr (lit "id") event_data
     = option_map PStr (last_field (lit "id:") lines)
  /\ event_attr (lit "retry") event_data
     = option_map PStr (last_field (lit "retry:") lines).
Proof.
  intros P. cbn zeta. unfold option_map.
  repeat split; apply (parse_sse_event_field _ _ event_str); auto.
Qed.

(** X6: an Event is never the empty object; its keys are among [event],
    [id], [retry] and [data], and no key comes twice. *)
Theorem event_has_known_distinct_keys (event_str : str) (event : dict) :
  _parse_sse_event event_str = Ok (Some event) ->
  truthy event = true
  /\ NoDup (keys event)
  /\ incl (keys event) event_keys.
Proof.
  intros P. split; [apply (parse_sse_event_truthy event_str), P|].
  revert P. unfold _parse_sse_event.
  destruct (truthy (strip event_str)); cbn [negb]; [|discriminate].
  pose proof (parse_lines_keys (split_char LF event_str) ([], [])) as K.
  destruct (fold_left parse_line (split_char LF event_str) ([], []))
    as [ev data_lines].
  cbn [fst keys map] in K.
  specialize (K (conj (NoDup_nil _) (incl_nil_l _))).
  destruct (truthy data_lines).
  - destruct (loads_or_raw _) as [v|x]; [|discriminate].
    rewrite truthy_dict_set. intros E. inversion E; subst.
    apply dict_set_keys; [cbn; auto | exact K].
  - destruct (truthy ev) eqn:T; [|discriminate].
    intros E. inversion E; subst. auto.
Qed.

(** ** Data lines *)

(** X7: a block with a [data:] line never yields an Event without a
    [data] attribute, whatever follows the prefix, nothing included: either
    [_parse_sse_event] returns an Event that has the attribute, or
    [json.loads] raised on the joined data another exception than
    [JSONDecodeError] and that exception leaves the method. *)
Theorem data_line_gives_data_attribute (event_str : str) :
  existsb (fun l => startswith (lit "data:") (strip l))
          (split_char LF event_str) = true ->
  match _parse_sse_event event_str with
  | Ok (Some event) => exists v, dict_get (lit "data") event = Some v
  | Ok None => False
  | Raise e =>
      loads_or_raw (join (lit "\n") (data_values (split_char LF event_str)))
      = Raise e
  end.
Proof.
  intros H. pose proof (data_values_some _ H) as V.
  pose proof (parse_sse_event_cases event_str) as C.
  destruct (forallb comment_or_blank (split_char LF event_str)) eqn:E.
  { apply data_values_none in E. congruence. }
  destruct (data_values (split_char LF event_str)) as [|x xs]; [congruence|].
  destruct (loads_or_raw (join (lit "\n") (x :: xs))) as [v|e].
  - destruct C as [event [P [_ D]]]. rewrite P. eauto.
  - rewrite C. reflexivity.
Qed.

(** X8: the block made of the one line [data:] and any text [w] yields
    the Event with the one attribute [data], whose value is [w] without the
    whitespace around it, decoded when that is JSON and kept as it is when
    [json.loads] raises [JSONDecodeError]: the space after the colon is not
    needed and spaces at the end are lost.  When [json.loads] raises another
    exception on it, that exception leaves the method. *)
Theorem data_is_stripped (w : str) :
  forallb (fun c => negb (c =? LF)) w = true ->
  _parse_sse_event (lit "data:" ++ w)
  = match loads_or_raw (strip w) with
    | Ok v => Ok (Some [(lit "data", v)])
    | Raise e => Raise e
    end.
Proof.
  intros H.
  assert (L : forallb (fun c => negb (c =? LF)) (lit "data:" ++ w) = true).
  { rewrite forallb_app. apply andb_true_iff. split; [reflexivity | exact H]. }
  assert (S : strip (lit "data:" ++ w) = lit "data:" ++ rstrip w).
  { unfold strip. change (lstrip (lit "data:" ++ w)) with (lit "data:" ++ w).
    apply (rstrip_after_prefix (lit "data") w). }
  unfold _parse_sse_event. rewrite (split_char_no_sep _ _ L), S.
  change (truthy (lit "data:" ++ rstrip w)) with true. cbn [negb fold_left].
  unfold parse_line. rewrite S.
  change (truthy (lit "data:" ++ rstrip w)) with true. cbn [negb].
  change (startswith (lit "data:") (lit "data:" ++ rstrip w)) with true.
  cbn iota. change (skipn 5 (lit "data:" ++ rstrip w)) with (rstrip w).
  rewrite strip_rstrip. cbn [app truthy join].
  destruct (loads_or_raw (strip w)); reflexivity.
Qed.

(** ** What the stream handler does *)

Lemma send_event_actions (block : str) (event_data : option dict) :
  _parse_sse_event block = Ok event_data ->
  Forall stream_action (send_event event_data).
Proof.
  intros P. unfold send_event. destruct event_data as [ev|]; [|constructor].
  destruct (truthy ev); constructor; [|constructor].
  exists block. exact P.
Qed.

Lemma drain_buffer_actions (buffer : str) :
  Forall stream_action (fst (drain_buffer buffer)).
Proof.
  by_length buffer IH.
  rewrite drain_buffer_eq.
  destruct (split_once _ buffer) as [[e b]|] eqn:E; [|constructor].
  pose proof (split_once_shorter _ _ _ E) as L.
  destruct (_parse_sse_event e) as [ev|x] eqn:P; [|constructor].
  specialize (IH (List.length b) ltac:(lia) b eq_refl).
  destruct (drain_buffer b) as [frames kept]. cbn [fst] in *.
  apply Forall_app. split; [apply (send_event_actions e), P | exact IH].
Qed.

Lemma stream_loop_actions (content : list arrival) (buffer : str)
    (ending : option exn) :
  Forall stream_action (fst (stream_loop buffer content ending)).
Proof.
  revert buffer; induction content as [|a content IH]; intros buffer.
  - cbn. destruct ending; constructor.
  - cbn [stream_loop]. destruct (ws_closed a).
    + repeat constructor.
    + pose proof (drain_buffer_actions (buffer ++ decode ignore (chunk a)))
        as D.
      destruct (drain_buffer (buffer ++ decode ignore (chunk a)))
        as [s [l|x]]; cbn [fst] in *.
      * specialize (IH l).
        destruct (stream_loop l content ending) as [later f].
        cbn [fst] in *. repeat constructor. apply Forall_app. auto.
      * repeat constructor. exact D.
Qed.

(** X9: whatever the body and whenever the connection closes, the stream
    handler only reads chunks, looks at [ws.closed] and sends Events as JSON
    objects: it posts nothing, never awaits [response.text()] and sends no
    text frame. *)
Theorem stream_handler_sends_events_only (response : ClientResponse) :
  Forall stream_action (fst (_handle_sse_stream response))
  /\ posts (fst (_handle_sse_stream response)) = []
  /\ reads_text (fst (_handle_sse_stream response)) = false
  /\ Forall (fun a => exists event, a = SendJson (PDict event)
                                    /\ is_event event)
            (sent (fst (_handle_sse_stream response))).
Proof.
  assert (A : Forall stream_action (fst (_handle_sse_stream response))).
  { unfold _handle_sse_stream.
    pose proof (stream_loop_actions (content response) []
                                    (content_error response)) as L.
    destruct (stream_loop [] (content response) (content_error response))
      as [trace [kept|x]]; [|exact L].
    cbn [fst] in L. rewrite flush_buffer_parses.
    destruct (_parse_sse_event kept) as [ev|x] eqn:P; cbn [fst].
    - apply Forall_app. split; [exact L | apply (send_event_actions kept), P].
    - rewrite app_nil_r. exact L. }
  split; [exact A|].
  induction A as [|a t Ha _ IH]; [repeat split; constructor|].
  destruct IH as [P [R S]].
  destruct a as [r| |c|b|v|s]; cbn in Ha; try contradiction;
    cbn [posts reads_text existsb orb sent filter is_send];
    repeat split; auto.
  destruct v; try contradiction. constructor; [eauto | exact S].
Qed.

(** ** Forwarding one message *)

(** X10: for a response with status 200 the Content-Type header decides:
    a header with [text/event-stream] anywhere in it, parameters or not,
    has the body handled as a stream, with an error frame at the end when an
    exception leaves the handler; any other header, and no header at all,
    has the body read as text and sent as one text frame, as it is.  (There
    is a response only when the request was posted.) *)
Theorem content_type_selects_stream
    (self : SSEToWebSocketProxy) (data : str) (response : ClientResponse) :
  status response = 200 ->
  let trace := _forward_to_sse self data (Responded response) in
  match loads_or_raw data with
  | Ok payload =>
      ((exists p q, content_type_header response
                    = Some (p ++ lit "text/event-stream" ++ q)) ->
       trace = Post (post_request self payload)
               :: fst (_handle_sse_stream response)
               ++ match snd (_handle_sse_stream response) with
                  | Some e => [SendJson (error_frame None (exn_str e))]
                  | None => []
                  end)
      /\ ((forall p q, content_type_header response
                       <> Some (p ++ lit "text/event-stream" ++ q)) ->
          trace = [Post (post_request self payload); ReadText;
                   SendStr (text response)])
  | Raise e => trace = [SendJson (error_frame None (exn_str e))]
  end.
Proof.
  intros H. cbn zeta. unfold _forward_to_sse, forward_payload.
  destruct (loads_or_raw data) as [payload|e]; [|reflexivity].
  rewrite H. change (200 =? 200) with true. cbn [negb]. split.
  - intros [p [q E]]. rewrite E.
    assert (I : str_in (lit "text/event-stream")
                       (p ++ lit "text/event-stream" ++ q) = true)
      by (apply str_in_occurs; eauto).
    rewrite I. destruct (_handle_sse_stream response). reflexivity.
  - intros N. destruct (content_type_header response) as [v|]; [|reflexivity].
    destruct (str_in (lit "text/event-stream") v) eqn:I; [|reflexivity].
    apply str_in_occurs in I. destruct I as [p [q ->]].
    exfalso. apply (N p q). reflexivity.
Qed.

(** X11: a call of [_forward_to_sse] posts at most once.  When
    [json.loads] returns or raises [JSONDecodeError] it posts once, the
    request made from the payload, before anything else; when [json.loads]
    raises another exception it posts nothing and sends one error frame.
    The body of a response is read one way at most: never both as text and
    chunk by chunk. *)
Theorem forward_posts_once
    (self : SSEToWebSocketProxy) (data : str) (outcome : upstream) :
  let trace := _forward_to_sse self data outcome in
  match loads_or_raw data with
  | Ok payload =>
      hd_error trace = Some (Post (post_request self payload))
      /\ posts trace = [post_request self payload]
  | Raise e =>
      trace = [SendJson (error_frame None (exn_str e))] /\ posts trace = []
  end
  /\ reads_text trace && truthy (chunks_read trace) = false.
Proof.
  cbn zeta. unfold _forward_to_sse, forward_payload.
  destruct (loads_or_raw data) as [payload|e]; [|cbn; auto].
  cbn [hd_error posts reads_text existsb orb chunks_read].
  destruct outcome as [e|response]; [cbn; auto|].
  destruct (negb (status response =? 200)); [cbn; auto|].
  destruct (str_in _ _); [|cbn; auto].
  destruct (stream_handler_sends_events_only response) as [_ [P [R _]]].
  destruct (_handle_sse_stream response) as [trace r]. cbn [fst] in P, R.
  unfold reads_text in *. rewrite posts_app, existsb_app, P, R.
  destruct r; cbn; auto.
Qed.

End Proxy.

(** * Examples, in CPython with its defaults *)

(** ** Chunk boundaries *)

(** C1: chunk-boundary invariance fails when a chunk boundary falls inside
    a multi-byte character.  The body [data: é] followed by a blank line
    yields the Event with data "é" when fed whole; cut between the two bytes
    of the é, each chunk is decoded on its own, both halves of the character
    are dropped and the Event sent has the empty string as data. *)
Theorem chunk_boundary_inside_character :
  body_e_acute_head ++ body_e_acute_tail = body_e_acute
  /\ sent (fst (_handle_sse_stream cpython (event_stream [body_e_acute])))
     = [SendJson (PDict [(lit "data", PStr [233])])]
  /\ sent (fst (_handle_sse_stream cpython
                  (event_stream [body_e_acute_head; body_e_acute_tail])))
     = [SendJson (PDict [(lit "data", PStr [])])]
  /\ snd (_handle_sse_stream cpython (event_stream [body_e_acute])) = None
  /\ snd (_handle_sse_stream cpython
            (event_stream [body_e_acute_head; body_e_acute_tail])) = None.
Proof. repeat apply conj; vm_compute; reflexivity. Qed.

Lemma chunking_invariant_between_characters_witness :
  let pieces := [lit "da"; lit "ta: " ++ [233; 8364]; lit "\n";
                 lit "\nid: 1" ++ [128512]] in
  forallb (forallb is_scalar) pieces = true
  /\ sent (fst (_handle_sse_stream cpython (event_stream (map encode pieces))))
     = sent (fst (_handle_sse_stream cpython
                    (event_stream [concat (map encode pieces)])))
  /\ snd (_handle_sse_stream cpython (event_stream (map encode pieces)))
     = snd (_handle_sse_stream cpython
              (event_stream [concat (map encode pieces)])).
Proof.
  intros pieces. split; [reflexivity|].
  apply (chunking_invariant_between_characters cpython pieces). reflexivity.
Defined.

(** ** The request body *)


Lemma other_payload_posts_empty_body_witness :
  json_loads cpython (lit "[1, 2]") = Ok (PList [PInt 1; PInt 2])
  /\ exists r rest,
      _forward_to_sse cpython proxy (lit "[1, 2]")
                      (Raised (ClientError (lit "refused")))
      = Post r :: rest
      /\ post_json r = None
      /\ post_data r = None.
Proof.
  split; [vm_compute; reflexivity|].
  apply (other_payload_posts_empty_body cpython proxy (lit "[1, 2]")
           (PList [PInt 1; PInt 2]));
    vm_compute; reflexivity.
Defined.

(** A number, a boolean and null, each posted with an empty body. *)
Lemma scalar_payloads_post_empty_body :
  Forall (fun data =>
            exists v, loads_or_raw cpython data = Ok v
                      /\ post_json (post_request proxy v) = None
                      /\ post_data (post_request proxy v) = None)
         [lit "42"; lit "-1.5e3"; lit "true"; lit "false"; lit "null"].
Proof. repeat constructor; eexists; vm_compute; auto. Qed.

(** An integer of 4301 digits is JSON, but [json.loads] raises
    [ValueError] on it: the message is not posted, the block yields no
    Event, and one error frame is sent. *)
Lemma long_integer_raises :
  json_loads cpython nines = Raise (ValueError 4301)
  /\ _forward_to_sse cpython proxy nines (Responded boom)
     = [SendJson (error_frame None (message cpython (ValueError 4301)))]
  /\ _parse_sse_event cpython (lit "data: " ++ nines)
     = Raise (ValueError 4301)
  /\ _forward_to_sse cpython proxy (lit "{}")
       (Responded (event_stream
                     [encode (lit "data: 1\n\ndata: " ++ nines
                              ++ lit "\n\ndata: 2\n\n")]))
     = [Post (post_request proxy (PDict []));
        ReadChunk (encode (lit "data: 1\n\ndata: " ++ nines
                           ++ lit "\n\ndata: 2\n\n"));
        CheckClosed false;
        SendJson (PDict [(lit "data", PInt 1)]);
        SendJson (error_frame None (message cpython (ValueError 4301)))].
Proof. repeat apply conj; vm_compute; reflexivity. Qed.

(** ** A response that is not a success *)

Lemma non_200_sends_one_error_frame_witness :
  status boom <> 200
  /\ loads_or_raw cpython (lit "{}") = Ok (PDict [])
  /\ sent (_forward_to_sse cpython proxy (lit "{}") (Responded boom))
     = [SendJson (PDict [(lit "error", PBool true);
                         (lit "status", PInt 500);
                         (lit "message", PStr (lit "boom"))])]
  /\ chunks_read (_forward_to_sse cpython proxy (lit "{}") (Responded boom))
     = [].
Proof.
  split; [discriminate|]. split; [vm_compute; reflexivity|].
  pose proof (non_200_sends_one_error_frame cpython proxy (lit "{}") boom
                ltac:(discriminate)) as T.
  cbn zeta in T.
  change (loads_or_raw cpython (lit "{}")) with (@Ok pyval (PDict [])) in T.
  destruct T as [_ [S C]]. split; [exact S | exact C].
Defined.

(** ** A connection that closes during a stream *)

(** On [closing_stream] the second frame is sent without a new look at
    [ws.closed], and the third is sent after [ws.closed] was read as
    true. *)
Lemma sends_without_check_and_after_close :
  _handle_sse_stream cpython closing_stream
  = ([ReadChunk (encode (lit "data: a\n\ndata: b\n\ndata: c"));
      CheckClosed false;
      SendJson (PDict [(lit "data", PStr (lit "a"))]);
      SendJson (PDict [(lit "data", PStr (lit "b"))]);
      ReadChunk (encode (lit "\n\n"));
      CheckClosed true;
      SendJson (PDict [(lit "data", PStr (lit "c"))])], None)
  /\ checked_before_each_send
       false (fst (_handle_sse_stream cpython closing_stream)) = false
  /\ no_send_after_closed
       (fst (_handle_sse_stream cpython closing_stream)) = false.
Proof. repeat apply conj; vm_compute; reflexivity. Qed.

Lemma stream_loop_stops_at_closed_chunk_witness :
  let before := [open_chunk (encode (lit "data: a\n\ndata: b"))] in
  let a := {| chunk := encode (lit "\n\n"); ws_closed := true |} in
  let after := [open_chunk (encode (lit "data: c\n\n"))] in
  all_open before = true
  /\ ws_closed a = true
  /\ stream_loop cpython [] before None
     = ([ReadChunk (chunk (open_chunk (encode (lit "data: a\n\ndata: b"))));
         CheckClosed false;
         SendJson (PDict [(lit "data", PStr (lit "a"))])],
        Ok (lit "data: b"))
  /\ stream_loop cpython [] (before ++ a :: after) None
     = ([ReadChunk (chunk (open_chunk (encode (lit "data: a\n\ndata: b"))));
         CheckClosed false;
         SendJson (PDict [(lit "data", PStr (lit "a"))]);
         ReadChunk (chunk a); CheckClosed true],
        Ok (lit "data: b")).
Proof.
  intros before a after.
  split; [reflexivity|]. split; [reflexivity|].
  assert (B : stream_loop cpython [] before None
              = ([ReadChunk (chunk (open_chunk
                                      (encode (lit "data: a\n\ndata: b"))));
                  CheckClosed false;
                  SendJson (PDict [(lit "data", PStr (lit "a"))])],
                 Ok (lit "data: b")))
    by (vm_compute; reflexivity).
  split; [exact B|].
  pose proof (stream_loop_stops_at_closed_chunk cpython before after a []
                None eq_refl eq_refl) as T.
  rewrite B in T.
  destruct (stream_loop cpython [] (before ++ a :: after) None)
    as [trace kept].
  destruct T as [T [K _]]. rewrite T, K. reflexivity.
Defined.

Lemma closed_chunk_ends_stream_witness :
  let before := [open_chunk (encode (lit "data: a\n\ndata: b"))] in
  let a := {| chunk := encode (lit "\n\n"); ws_closed := true |} in
  let after := [open_chunk (encode (lit "data: c\n\n"))] in
  let response :=
    {| status := 200; content_type_header := None; text := [];
       content := before ++ a :: after;
       content_error := Some (ClientError (lit "reset")) |} in
  all_open before = true
  /\ ws_closed a = true
  /\ sent (fst (_handle_sse_stream cpython response))
     = [SendJson (PDict [(lit "data", PStr (lit "a"))]);
        SendJson (PDict [(lit "data", PStr (lit "b"))])]
  /\ snd (_handle_sse_stream cpython response) = None.
Proof.
  intros before a after response.
  split; [reflexivity|]. split; [reflexivity|].
  destruct (closed_chunk_ends_stream cpython before after a response
              eq_refl eq_refl eq_refl) as [S [R _]].
  split; [rewrite S | rewrite R]; vm_compute; reflexivity.
Defined.

(** ** The Event of a block *)



Lemma no_field_no_event_witness :
  let event_str := lit ": keepalive\n\n  : 2nd comment \n" in
  forallb comment_or_blank (split_char LF event_str) = true
  /\ fold_left parse_line (split_char LF event_str) ([], []) = ([], [])
  /\ _parse_sse_event cpython event_str = Ok None
  /\ flush_buffer cpython event_str = ([], None).
Proof.
  intros event_str. split; [reflexivity|].
  apply (proj2 (no_field_no_event cpython event_str)). reflexivity.
Defined.

(** A comment block in a stream: nothing is sent for it. *)
Lemma comment_block_sends_nothing :
  sent (fst (_handle_sse_stream cpython
               (event_stream [encode (lit ": ping\n\n\n: pong\n\n")]))) = [].
Proof. vm_compute. reflexivity. Qed.

Lemma last_field_line_wins_witness :
  let block := lit "id: 1\nevent: a\ndata: x\nid: 2\nretry: 5\nevent: b" in
  let event := [(lit "id", PStr (lit "2")); (lit "event", PStr (lit "b"));
                (lit "retry", PStr (lit "5")); (lit "data", PStr (lit "x"))] in
  _parse_sse_event cpython block = Ok (Some event)
  /\ last_field (lit "event:") (split_char LF block) = Some (lit "b")
  /\ last_field (lit "id:") (split_char LF block) = Some (lit "2")
  /\ dict_get (lit "event") event
     = option_map PStr (last_field (lit "event:") (split_char LF block))
  /\ dict_get (lit "id") event
     = option_map PStr (last_field (lit "id:") (split_char LF block))
  /\ dict_get (lit "retry") event
     = option_map PStr (last_field (lit "retry:") (split_char LF block)).
Proof.
  intros block event. split; [reflexivity|].
  split; [reflexivity|]. split; [reflexivity|].
  apply (last_field_line_wins cpython block (Some event)). reflexivity.
Defined.

Lemma event_has_known_distinct_keys_witness :
  let block := lit "id: 1\nevent: a\ndata: x\nid: 2\nretry: 5\nevent: b" in
  let event := [(lit "id", PStr (lit "2")); (lit "event", PStr (lit "b"));
                (lit "retry", PStr (lit "5")); (lit "data", PStr (lit "x"))] in
  _parse_sse_event cpython block = Ok (Some event)
  /\ truthy event = true /\ NoDup (keys event) /\ incl (keys event) event_keys.
Proof.
  intros block event. split; [reflexivity|].
  apply (event_has_known_distinct_keys cpython block event). reflexivity.
Defined.

Lemma data_line_gives_data_attribute_witness :
  existsb (fun l => startswith (lit "data:") (strip l))
          (split_char LF (lit "data:")) = true
  /\ _parse_sse_event cpython (lit "data:") = Ok (Some [(lit "data", PStr [])])
  /\ match _parse_sse_event cpython (lit "data:") with
     | Ok (Some event) => exists v, dict_get (lit "data") event = Some v
     | Ok None => False
     | Raise e =>
         loads_or_raw cpython
           (join (lit "\n") (data_values (split_char LF (lit "data:"))))
         = Raise e
     end.
Proof.
  split; [reflexivity|]. split; [reflexivity|].
  apply (data_line_gives_data_attribute cpython (lit "data:")). reflexivity.
Defined.

Lemma data_is_stripped_witness :
  forallb (fun c => negb (c =? LF)) (lit "  [1, 2] \t") = true
  /\ _parse_sse_event cpython (lit "data:" ++ lit "  [1, 2] \t")
     = Ok (Some [(lit "data", PList [PInt 1; PInt 2])]).
Proof.
  split; [reflexivity|].
  rewrite (data_is_stripped cpython (lit "  [1, 2] \t") eq_refl).
  vm_compute. reflexivity.
Defined.

(** ** The end of the stream *)



(** A trailing block without its blank line, emitted at the end of the
    stream. *)
Lemma trailing_block_is_emitted :
  sent (fst (_handle_sse_stream cpython
               (event_stream
                  [encode (lit "data: 1\n\nevent: end\ndata: bye")])))
  = [SendJson (PDict [(lit "data", PInt 1)]);
     SendJson (PDict [(lit "event", PStr (lit "end"));
                      (lit "data", PStr (lit "bye"))])].
Proof. vm_compute. reflexivity. Qed.

(** A body that breaks off: the frames of the blocks read are sent, the
    block not yet delimited is not, and an error frame follows. *)
Lemma broken_body_sends_error :
  _forward_to_sse cpython proxy (lit "{}")
    (Responded {| status := 200;
                  content_type_header := Some (lit "text/event-stream");
                  text := [];
                  content := [open_chunk (encode (lit "data: 1\n\ndata: 2"))];
                  content_error := Some (ClientError (lit "payload")) |})
  = [Post (post_request proxy (PDict []));
     ReadChunk (encode (lit "data: 1\n\ndata: 2"));
     CheckClosed false;
     SendJson (PDict [(lit "data", PInt 1)]);
     SendJson (error_frame None (lit "payload"))].
Proof. vm_compute. reflexivity. Qed.

(** ** Decoding a chunk *)

(** The chunk of the one byte FF: with replacement it decodes to U+FFFD,
    the loop adds nothing to the buffer. *)
Lemma invalid_byte_is_not_replaced :
  decode replace [xff] = [65533]
  /\ decode ignore [xff] = []
  /\ snd (stream_loop cpython (lit "data: x") [open_chunk [xff]] None)
     = Ok (lit "data: x")
  /\ ~ buffer_grows_by_replaced cpython (lit "data: x") [xff].
Proof.
  repeat apply conj; try (vm_compute; reflexivity).
  intros H. vm_compute in H. discriminate H.
Qed.

Lemma chunk_decoded_ignoring_errors_witness :
  let a := open_chunk (encode (lit "data: ") ++ [xff] ++ encode [233; 10; 10]) in
  ws_closed a = false
  /\ is_scalar 233 = true
  /\ invalid_start xff = true
  /\ stream_loop cpython [] [a] None
     = ([ReadChunk (chunk a); CheckClosed false;
         SendJson (PDict [(lit "data", PStr [233])])], Ok [])
  /\ decode ignore (encode_char 233 ++ [xff; x0a])
     = 233 :: decode ignore [xff; x0a]
  /\ decode ignore (xff :: encode [233; 10; 10]) = [233; 10; 10].
Proof.
  intros a. do 3 (split; [reflexivity|]).
  destruct (chunk_decoded_ignoring_errors cpython [] a [] None eq_refl)
    as [E [_ [K D]]].
  split; [rewrite E; vm_compute; reflexivity|]. split.
  - apply K. reflexivity.
  - rewrite D; [vm_compute; reflexivity|].
    apply invalid_start_begins_nothing. reflexivity.
Defined.

(** Kinds of invalid sequences, each between an [a] and a [b]: a
    sequence cut short, an overlong form, a surrogate, a value beyond the
    last code point, a stray continuation byte.  All are dropped. *)
Lemma invalid_sequences_are_dropped :
  Forall (fun invalid => decode ignore ([x61] ++ invalid ++ [x62]) = [97; 98])
         [[xe2; x82]; [xf0; x9f; x98]; [xc3]; [xc0; x80]; [xe0; x80; x80];
          [xed; xa0; x80]; [xf4; x90; x80; x80]; [x80]; [xfe]; [xff]].
Proof. repeat constructor. Qed.

(** ** Line endings *)


(** ** The stream as a whole *)


(** ** Forwarding one message *)

Lemma content_type_selects_stream_witness :
  let streamed :=
    {| status := 200;
       content_type_header := Some (lit "text/event-stream; charset=utf-8");
       text := lit "data: 1\n\n";
       content := [open_chunk (encode (lit "data: 1\n\n"))];
       content_error := None |} in
  let plain :=
    {| status := 200; content_type_header := None;
       text := lit "data: 1\n\n";
       content := [open_chunk (encode (lit "data: 1\n\n"))];
       content_error := None |} in
  status streamed = 200
  /\ _forward_to_sse cpython proxy (lit "{}") (Responded streamed)
     = [Post (post_request proxy (PDict []));
        ReadChunk (encode (lit "data: 1\n\n")); CheckClosed false;
        SendJson (PDict [(lit "data", PInt 1)])]
  /\ _forward_to_sse cpython proxy (lit "{}") (Responded plain)
     = [Post (post_request proxy (PDict [])); ReadText;
        SendStr (lit "data: 1\n\n")].
Proof.
  intros streamed plain. split; [reflexivity|].
  pose proof (content_type_selects_stream cpython proxy (lit "{}") streamed
                eq_refl) as S.
  pose proof (content_type_selects_stream cpython proxy (lit "{}") plain
                eq_refl) as P.
  cbn zeta in S, P.
  change (loads_or_raw cpython (lit "{}")) with (@Ok pyval (PDict [])) in S, P.
  split.
  - rewrite (proj1 S); [vm_compute; reflexivity|].
    exists [], (lit "; charset=utf-8"). reflexivity.
  - apply (proj2 P). discriminate.
Defined.
